(** * sveltekit-superforms: [src/lib/superValidate.ts]

    A shallow embedding of [superValidate], [message], [setError],
    [removeFiles] and [failAndRemoveFiles], with the properties of the
    result object, of the error tree and of the returned payload.

    A JavaScript object is the finite map of its own enumerable properties.
    Its prototype is [Object.prototype], as for every object literal and
    every parsed JSON object, and [Object.prototype] is as the language
    defines it: where the program reads a property with [obj[key]] or tests
    [key in obj], the members of [Object.prototype] are seen through the
    prototype chain. In-place mutation of the form is modelled by returning
    the updated form; [async]/[await] is modelled by function application,
    the calls of the adapter being recorded. *)

From stdpp Require Import gmap strings list fin_maps.
From Stdlib Require Import ZArith Lia Ascii.

#[local] Set Warnings "-register-all".
#[local] Open Scope Z_scope.

(** ** JavaScript values *)

(** The values a form can carry. An array is a list of slots; [None] is a
    hole, which is what [delete arr[i]] leaves behind. *)
Inductive value : Type :=
| VUndefined
| VNull
| VBool (b : bool)
| VNumber (n : Z)
| VString (s : string)
| VFile (name : string)
| VArray (items : list (option value))
| VObject (fields : gmap string value)
| VPrototypeMember (name : string).

(** [VPrototypeMember name] is what reading the member [name] of
    [Object.prototype] gives: a built-in function ([toString],
    [constructor], ...), which is neither a File nor of type ['object']. *)

(** ** The prototype chain *)

(** The names of the members of [Object.prototype] (ECMAScript, with its
    annex B). None of them is enumerable. *)
Definition Object_prototype_names : list string :=
  ["constructor"; "hasOwnProperty"; "isPrototypeOf"; "propertyIsEnumerable";
   "toLocaleString"; "toString"; "valueOf"; "__defineGetter__";
   "__defineSetter__"; "__lookupGetter__"; "__lookupSetter__"; "__proto__"].

(** The name is found on [Object.prototype]. *)
Definition inherited (k : string) : bool :=
  bool_decide (k ∈ Object_prototype_names).

(** [__proto__] is an accessor of [Object.prototype]: on an object without
    an own property of this name, reading it gives the prototype and
    assigning to it replaces the prototype; no own property is made. *)
Definition is_proto (k : string) : bool := bool_decide (k = "__proto__").

(** [key in obj] *)
Definition has_property {A} (obj : gmap string A) (k : string) : bool :=
  bool_decide (is_Some (obj !! k)) || inherited k.

(** [obj[key]] on an object of values: the own property, else the member of
    [Object.prototype], else [undefined]. *)
Definition get_property (obj : gmap string value) (k : string) : value :=
  match obj !! k with
  | Some v => v
  | None => if inherited k then VPrototypeMember k else VUndefined
  end.

(** [obj[key] = v] on an object that has [Object.prototype] as prototype:
    an own property is written, except for [__proto__] on an object without
    such an own property, where the accessor of [Object.prototype] takes
    the assignment and the own properties stay as they are. *)
Definition set_property {A} (obj : gmap string A) (k : string) (v : A)
    : gmap string A :=
  if is_proto k && negb (bool_decide (is_Some (obj !! k))) then obj
  else <[k := v]> obj.

(** [value instanceof File] *)
Definition is_file (v : value) : bool :=
  match v with VFile _ => true | _ => false end.

(** One property visited by the [for (const key in obj)] loop of
    [removeFiles]: a File is deleted, anything else is kept, after the
    recursive call [rec] has cleaned it. *)
Definition removeFiles_property (rec : value → value) (v : value) : option value :=
  if is_file v then None else Some (rec v).

(** [removeFiles]: a non-object is returned as it is; otherwise every
    File-valued property is deleted and every other object-valued property
    is cleaned recursively. *)
Fixpoint removeFiles (v : value) : value :=
  match v with
  | VArray items =>
      VArray ((λ slot, slot ≫= removeFiles_property removeFiles) <$> items)
  | VObject fields =>
      VObject (omap (removeFiles_property removeFiles) fields)
  | _ => v
  end.

(** Does some property, at any depth, hold a File? *)
Fixpoint has_file_property (v : value) : bool :=
  match v with
  | VArray items =>
      existsb (λ slot, match slot with
                       | Some x => is_file x || has_file_property x
                       | None => false
                       end) items
  | VObject fields =>
      map_fold (λ _ x acc, is_file x || has_file_property x || acc) false fields
  | _ => false
  end.

Fixpoint value_size (v : value) : nat :=
  match v with
  | VArray items =>
      S (foldr (λ slot acc, match slot with
                            | Some x => value_size x + acc
                            | None => acc
                            end)%nat 0%nat items)
  | VObject fields =>
      S (map_fold (λ _ x acc, value_size x + acc)%nat 0%nat fields)
  | _ => 0%nat
  end.

(** ** The form: [SuperValidated] and [ValidationErrors] *)

(** A node of [ValidationErrors]: the message array of a field ([string[]]),
    or the error object of a nested object or array field. *)
Inductive ErrorTree : Type :=
| Messages (msgs : list string)
| Nested (fields : gmap string ErrorTree).

Abbreviation ValidationErrors := (gmap string ErrorTree).

Fixpoint ErrorTree_size (e : ErrorTree) : nat :=
  match e with
  | Messages _ => 0%nat
  | Nested fields => S (map_fold (λ _ x acc, ErrorTree_size x + acc)%nat 0%nat fields)
  end.

(** [SuperValidated<Out, Message>]. [form_errors] is optional here because
    [setError] tests [!form.errors]; [form_message] and [form_shape] are the
    optional members of the type. *)
Record SuperValidated : Type := {
  form_id : string;
  form_valid : bool;
  form_posted : bool;
  form_errors : option ValidationErrors;
  form_data : gmap string value;
  form_constraints : gmap string value;
  form_message : option value;
  form_shape : option (gmap string value)
}.

Definition set_valid (b : bool) (form : SuperValidated) : SuperValidated :=
  {| form_id := form_id form; form_valid := b; form_posted := form_posted form;
     form_errors := form_errors form; form_data := form_data form;
     form_constraints := form_constraints form;
     form_message := form_message form; form_shape := form_shape form |}.

Definition set_message (m : value) (form : SuperValidated) : SuperValidated :=
  {| form_id := form_id form; form_valid := form_valid form;
     form_posted := form_posted form; form_errors := form_errors form;
     form_data := form_data form; form_constraints := form_constraints form;
     form_message := Some m; form_shape := form_shape form |}.

Definition set_errors (e : ValidationErrors) (form : SuperValidated) : SuperValidated :=
  {| form_id := form_id form; form_valid := form_valid form;
     form_posted := form_posted form; form_errors := Some e;
     form_data := form_data form; form_constraints := form_constraints form;
     form_message := form_message form; form_shape := form_shape form |}.

(** The wrapper [{ form }] handed to [fail] or returned as it is. *)
Record Payload : Type := { form : SuperValidated }.

(** [ActionFailure<{ form }>], what [fail(status, { form })] of
    [@sveltejs/kit] builds. *)
Record ActionFailure : Type := { status : Z; data : Payload }.

Definition realFail (st : Z) (p : Payload) : ActionFailure :=
  {| status := st; data := p |}.

(** The JavaScript object a form is, property by property. *)
Fixpoint ErrorTree_value (e : ErrorTree) : value :=
  match e with
  | Messages msgs => VArray ((λ s, Some (VString s)) <$> msgs)
  | Nested fields => VObject (ErrorTree_value <$> fields)
  end.

Definition optional_property (k : string) (o : option value)
    (obj : gmap string value) : gmap string value :=
  match o with Some v => <[k := v]> obj | None => obj end.

Definition SuperValidated_value (f : SuperValidated) : value :=
  VObject
    (optional_property "errors"
       ((λ e, VObject (ErrorTree_value <$> e)) <$> form_errors f)
    (optional_property "message" (form_message f)
    (optional_property "shape" (VObject <$> form_shape f)
    (<["id" := VString (form_id f)]>
    (<["valid" := VBool (form_valid f)]>
    (<["posted" := VBool (form_posted f)]>
    (<["data" := VObject (form_data f)]>
    (<["constraints" := VObject (form_constraints f)]> ∅)))))))).

Definition Payload_value (p : Payload) : value :=
  VObject {[ "form" := SuperValidated_value (form p) ]}.

(** [removeFiles] on the properties of an object. *)
Definition removeFiles_object (o : gmap string value) : gmap string value :=
  omap (removeFiles_property removeFiles) o.

(** [removeFiles({ form })] on the typed form: [id], [valid] and [posted] are
    not objects, [errors] holds strings only, and the other members are
    visited as by [removeFiles]. *)
Definition removeFiles_form (f : SuperValidated) : SuperValidated :=
  {| form_id := form_id f; form_valid := form_valid f;
     form_posted := form_posted f; form_errors := form_errors f;
     form_data := removeFiles_object (form_data f);
     form_constraints := removeFiles_object (form_constraints f);
     form_message := form_message f ≫= removeFiles_property removeFiles;
     form_shape := removeFiles_object <$> form_shape f |}.

Definition removeFiles_payload (p : Payload) : Payload :=
  {| form := removeFiles_form (form p) |}.

(** [failAndRemoveFiles(status, { form })]: the payload is an object, hence
    truthy, and is cleaned before [fail] is called. *)
Definition failAndRemoveFiles (st : Z) (p : Payload) : ActionFailure :=
  realFail st (removeFiles_payload p).

(** ** [message] *)

Record MessageOptions : Type := {
  mo_status : option Z;
  mo_removeFiles : option bool
}.

(** [message] returns [{ form }] or [fail(status, { form })]. *)
Inductive MessageResult : Type :=
| Plain (p : Payload)
| Failed (failure : ActionFailure).

(** [options?.status && options.status >= 400] *)
Definition status_is_error (st : option Z) : bool :=
  match st with
  | Some n => negb (n =? 0) && (400 <=? n)
  | None => false
  end.

(** [options?.removeFiles !== false] *)
Definition not_false (b : option bool) : bool :=
  match b with Some false => false | _ => true end.

Definition message (form0 : SuperValidated) (msg : value)
    (options : option MessageOptions) : MessageResult :=
  let st := options ≫= mo_status in
  let form1 := if status_is_error st then set_valid false form0 else form0 in
  let form2 := set_message msg form1 in
  let remove := not_false (options ≫= mo_removeFiles) in
  if form_valid form2 then
    Plain (if remove then removeFiles_payload {| form := form2 |}
           else {| form := form2 |})
  else
    let func := if remove then failAndRemoveFiles else realFail in
    Failed (func (default 400 st) {| form := form2 |}).

Definition setMessage := message.

(** ** Field paths *)

(** The characters a path is split at: [.], the opening and the closing
    bracket. *)
Definition is_separator (c : Ascii.ascii) : bool :=
  bool_decide (c = "."%char) || bool_decide (c = "["%char) || bool_decide (c = "]"%char).

Definition flush (cur : string) : list string :=
  if decide (cur = EmptyString) then [] else [cur].

Fixpoint split_segments (s cur : string) : list string :=
  match s with
  | EmptyString => flush cur
  | String c s' =>
      if is_separator c then flush cur ++ split_segments s' EmptyString
      else split_segments s' (cur +:+ String c EmptyString)
  end.

(** Modelled from the spec: [splitPath] of [./stringPath.js], which is not
    among the sources. A dotted/bracketed path is cut at its dots and
    brackets, and the empty pieces are dropped: ["tags[3].name"] gives
    [["tags"; "3"; "name"]]. *)
Definition splitPath (path : string) : list string :=
  split_segments path EmptyString.

(** What [parent[key]] finds on an object of the error tree: an own
    property; else a member of [Object.prototype], which is a built-in of
    the runtime and not [undefined]; else [undefined]. *)
Inductive Slot : Type :=
| Own (t : ErrorTree)
| Inherited
| Absent.

Definition read_slot (o : ValidationErrors) (k : string) : Slot :=
  match o !! k with
  | Some t => Own t
  | None => if inherited k then Inherited else Absent
  end.

Definition own_value (s : Slot) : option ErrorTree :=
  match s with Own t => Some t | _ => None end.

(** What the callback of [traversePath] receives and what [traversePath]
    returns for the last segment: the object the segment is a property of,
    the property name, and what [parent[key]] finds. *)
Record PathData : Type := {
  parent : ValidationErrors;
  key : string;
  value_at : Slot
}.

(** In the program [parent] is a reference into [form.errors], and writing
    a property of it changes the tree. Here the walk keeps the objects it
    went through, innermost first, each with the key it was left by;
    [plug] puts an object that was changed back below them. The walk only
    ever descends into an object it has read from its parent, so that what
    [plug] puts back is the object stored there. *)
Definition Context : Type := list (ValidationErrors * string).

Definition plug (ctx : Context) (o : ValidationErrors) : ValidationErrors :=
  foldl (λ child '(ancestor, k), <[k := Nested child]> ancestor) o ctx.

(** The three ways a walk ends. [Found]: the last segment was reached, on
    an object of the tree. [NotFound]: [traversePath] returned [undefined];
    [root] is the tree with the updates the callback made on the way.
    [LeftTree]: the walk goes on in something that is not an object of the
    tree: a message array, a built-in found through the prototype chain, or
    a value the callback made up. The program goes on there: it sets a
    property on the array or on the built-in and the call returns, or it
    throws, depending on what that object has and inherits, which differs
    between versions of the runtime. This model does not follow it. *)
Inductive Traversal : Type :=
| Found (leaf : PathData) (ctx : Context)
| NotFound (root : ValidationErrors)
| LeftTree.

(** What a callback hands back, after the writes it has made to the parent:
    [parent[key]] as it is then, [undefined], or some other value. *)
Inductive Handback : Type :=
| ReturnsProperty
| ReturnsUndefined
| ReturnsOther.

(** A callback returns the parent as it left it, and what it hands back. *)
Definition Modifier : Type := PathData → ValidationErrors * Handback.

Fixpoint traversePath_from (ctx : Context) (parent0 : ValidationErrors)
    (key0 : string) (rest : list string) (modifier : Modifier) : Traversal :=
  match rest with
  | [] =>
      Found {| parent := parent0; key := key0;
               value_at := read_slot parent0 key0 |} ctx
  | next :: rest' =>
      let '(parent1, returned) :=
        modifier {| parent := parent0; key := key0;
                    value_at := read_slot parent0 key0 |} in
      match returned with
      | ReturnsUndefined => NotFound (plug ctx parent1)
      | ReturnsOther => LeftTree
      | ReturnsProperty =>
          match read_slot parent1 key0 with
          | Absent => NotFound (plug ctx parent1)
          | Own (Nested child) =>
              traversePath_from ((parent1, key0) :: ctx) child next rest' modifier
          | Own (Messages _) => LeftTree
          | Inherited => LeftTree
          end
      end
  end.

(** Modelled from the spec: [traversePath] of [./traversal.js], which is not
    among the sources. It walks [realPath] from [obj]: at every segment but
    the last it calls the callback with the segment's parent, key and value
    and goes on into the value the callback returns, giving up with
    [undefined] when that is [undefined]; for the last segment it returns
    the parent, key and value without calling the callback. An empty path
    gives [undefined]. *)
Definition traversePath (obj : ValidationErrors) (realPath : list string)
    (modifier : Modifier) : Traversal :=
  match realPath with
  | [] => NotFound obj
  | key0 :: rest => traversePath_from [] obj key0 rest modifier
  end.

(** ** What a call does *)

(** [Returned]: the call returns. [PrototypeReplaced]: the call returns, and
    the own properties are as given, but an assignment to [__proto__] has
    replaced the prototype of an object of the tree, which is then no
    object of this model any more. [Thrown]: the call throws a TypeError.
    [Unmodelled]: the walk left the tree (see [LeftTree]); the call returns
    or throws, and the model says neither. *)
Inductive Outcome (A : Type) : Type :=
| Returned (a : A)
| PrototypeReplaced (a : A)
| Thrown
| Unmodelled.

Arguments Returned {A} a.
Arguments PrototypeReplaced {A} a.
Arguments Thrown {A}.
Arguments Unmodelled {A}.

Definition Outcome_map {A B} (f : A → B) (o : Outcome A) : Outcome B :=
  match o with
  | Returned a => Returned (f a)
  | PrototypeReplaced a => PrototypeReplaced (f a)
  | Thrown => Thrown
  | Unmodelled => Unmodelled
  end.

(** What the call returns, when it returns. *)
Definition returned {A} (o : Outcome A) : option A :=
  match o with
  | Returned a | PrototypeReplaced a => Some a
  | Thrown | Unmodelled => None
  end.

(** ** [setError] *)

Record SetErrorOptions : Type := {
  so_overwrite : option bool;
  so_status : option Z;
  so_removeFiles : option bool
}.

(** [string | string[]] *)
Inductive StringOrArray : Type :=
| Str (s : string)
| Strs (l : list string).

(** The two overloads of [setError]: without a path (a form-level error) and
    with one. *)
Inductive SetErrorCall : Type :=
| FormLevel (error : StringOrArray) (options : option SetErrorOptions)
| FieldLevel (path : string) (error : StringOrArray)
    (options : option SetErrorOptions).

(** "Unify signatures": a call without a path has the path [''], and
    missing options are [{}]. *)
Definition unify (call : SetErrorCall) : string * StringOrArray * SetErrorOptions :=
  let no_options :=
    {| so_overwrite := None; so_status := None; so_removeFiles := None |} in
  match call with
  | FormLevel error options => (EmptyString, error, default no_options options)
  | FieldLevel path error options => (path, error, default no_options options)
  end.

(** [Array.isArray(error) ? error : [error]] *)
Definition errArr_of (error : StringOrArray) : list string :=
  match error with Str s => [s] | Strs l => l end.

(** Truthiness of an optional boolean. *)
Definition truthy (b : option bool) : bool := default false b.

(** The callback [setError] passes to [traversePath]:
    [if (value === undefined) parent[key] = {}; return parent[key];] *)
Definition setError_modifier : Modifier := λ d,
  match value_at d with
  | Absent => (set_property (parent d) (key d) (Nested ∅), ReturnsProperty)
  | _ => (parent d, ReturnsProperty)
  end.

(** [Array.isArray(leaf.value) && !options.overwrite
      ? leaf.value.concat(errArr) : errArr] *)
Definition leaf_messages (old : option ErrorTree) (overwrite : bool)
    (errArr : list string) : list string :=
  match old with
  | Some (Messages msgs) => if overwrite then errArr else msgs ++ errArr
  | _ => errArr
  end.

(** The error tree after the body of [setError], lines 250 to 267. With
    the path [''], [_errors] is read, made an empty array if it is falsy,
    and replaced or concatenated to; concatenating to an object throws.
    Otherwise the path is split and walked, and the messages are assigned
    to [leaf.parent[leaf.key]] if there is a leaf. *)
Definition setError_errors (errors0 : ValidationErrors) (path : string)
    (errArr : list string) (overwrite : bool) : Outcome ValidationErrors :=
  if decide (path = EmptyString) then
    let errors1 :=
      match errors0 !! "_errors" with
      | None => <["_errors" := Messages []]> errors0
      | Some _ => errors0
      end in
    if overwrite then Returned (<["_errors" := Messages errArr]> errors1)
    else
      match errors1 !! "_errors" with
      | Some (Messages msgs) =>
          Returned (<["_errors" := Messages (msgs ++ errArr)]> errors1)
      | _ => Thrown
      end
  else
    let realPath := splitPath path in
    match traversePath errors0 realPath setError_modifier with
    | Found leaf ctx =>
        let stored :=
          Messages (leaf_messages (own_value (value_at leaf)) overwrite errArr) in
        let errors1 := plug ctx (set_property (parent leaf) (key leaf) stored) in
        if is_proto (key leaf) && negb (bool_decide (is_Some (parent leaf !! key leaf)))
        then PrototypeReplaced errors1
        else Returned errors1
    | NotFound root => Returned root
    | LeftTree => Unmodelled
    end.

Definition setError (form0 : SuperValidated) (call : SetErrorCall)
    : Outcome ActionFailure :=
  let '(path, error, options) := unify call in
  let errArr := errArr_of error in
  let errors0 := default ∅ (form_errors form0) in
  Outcome_map
    (λ errors1,
       let form1 := set_valid false (set_errors errors1 form0) in
       let func :=
         match so_removeFiles options with
         | Some false => realFail
         | _ => failAndRemoveFiles
         end in
       func (default 400 (so_status options)) {| form := form1 |})
    (setError_errors errors0 path errArr (truthy (so_overwrite options))).

(** Reading the own properties of the tree along a path. *)
Fixpoint get_path (o : ValidationErrors) (segments : list string) : option ErrorTree :=
  match segments with
  | [] => Some (Nested o)
  | k :: rest =>
      match rest, o !! k with
      | [], v => v
      | _, Some (Nested child) => get_path child rest
      | _, _ => None
      end
  end.

(** The walk of [setError] along the path stays in the tree, and its last
    write is an ordinary one: every intermediate segment reads as
    [undefined] or as an object of the tree (not as a message array, and
    not as a member of [Object.prototype]), in the objects that are there
    as in those made on the way, and the last segment is not a [__proto__]
    the object lacks. *)
Fixpoint fits (o : ValidationErrors) (segments : list string) : bool :=
  match segments with
  | [] => true
  | k :: rest =>
      match rest, read_slot o k with
      | [], Inherited => negb (is_proto k)
      | [], _ => true
      | _, Absent => fits ∅ rest
      | _, Own (Nested child) => fits child rest
      | _, _ => false
      end
  end.

(** The chain of fresh objects [setError] builds below a segment that was
    [undefined]: [{k1: {k2: ... {kn: leaf}}}], each object created empty and
    given the next segment only. *)
Fixpoint fresh_chain (segments : list string) (leaf : ErrorTree) : ErrorTree :=
  match segments with
  | [] => leaf
  | k :: rest => Nested {[ k := fresh_chain rest leaf ]}
  end.

(** "Sets the error at that path", as a function on trees: an intermediate
    segment that is not there gets an empty object, and the last segment
    gets the new value. *)
Fixpoint set_at (o : ValidationErrors) (segments : list string) (v : ErrorTree)
    : ValidationErrors :=
  match segments with
  | [] => o
  | k :: rest =>
      match rest with
      | [] => <[k := v]> o
      | _ =>
          let child := match o !! k with Some (Nested c) => c | _ => ∅ end in
          <[k := Nested (set_at child rest v)]> o
      end
  end.

(** ** [superValidate] *)

(** [Record<string, unknown> | null | undefined]: the type of [parsed.data]
    and of plain data handed to [superValidate]. *)
Inductive MaybeData : Type :=
| DataUndefined
| DataNull
| DataObject (o : gmap string value).

(** [!!d] *)
Definition present (d : MaybeData) : bool :=
  match d with DataObject _ => true | _ => false end.

(** [d ?? {}] *)
Definition or_empty (d : MaybeData) : gmap string value :=
  match d with DataObject o => o | _ => ∅ end.

(** What [parseRequest] returns. *)
Record ParsedData : Type := {
  parsed_id : option string;
  parsed_posted : bool;
  parsed_data : MaybeData
}.

Inductive PropertyKey : Type :=
| KeyString (s : string)
| KeyNumber (n : Z).

Record ValidationIssue : Type := {
  issue_message : string;
  issue_path : option (list PropertyKey)
}.

(** [ValidationResult<Out>]:
    [{ success: true, data } | { success: false, issues }]. *)
Inductive ValidationResult : Type :=
| Success (validated : gmap string value)
| Failure (issues : list ValidationIssue).

Definition success (r : ValidationResult) : bool :=
  match r with Success _ => true | Failure _ => false end.

Definition issues_of (r : ValidationResult) : list ValidationIssue :=
  match r with Success _ => [] | Failure issues => issues end.

(** A JSON schema is a JSON object. *)
Abbreviation JSONSchema := (gmap string value).

(** [Object.keys(o)] *)
Definition object_keys {A} (o : gmap string A) : list string :=
  (map_to_list o).*1.

(** [jsonSchema.additionalProperties === false] *)
Definition additionalProperties_false (jsonSchema : JSONSchema) : bool :=
  match jsonSchema !! "additionalProperties" with
  | Some (VBool false) => true
  | _ => false
  end.

(** [jsonSchema.properties ?? {}]; [properties] is an object when it is
    there (JSON Schema draft 7). *)
Definition schema_properties (jsonSchema : JSONSchema) : gmap string value :=
  match jsonSchema !! "properties" with
  | Some (VObject properties) => properties
  | _ => ∅
  end.

Record SuperValidateOptions : Type := {
  opt_errors : option bool;
  opt_id : option string;
  opt_preprocessed : option (list string);
  opt_defaults : option (gmap string value);
  opt_jsonSchema : option JSONSchema;
  opt_strict : option bool;
  opt_allowFiles : option bool
}.

(** [ValidationAdapter<Out>], the user-supplied schema adapter. *)
Record ValidationAdapter : Type := {
  superFormValidationLibrary : string;
  validate : gmap string value → ValidationResult;
  adapter_jsonSchema : JSONSchema;
  adapter_defaults : gmap string value;
  adapter_constraints : gmap string value;
  adapter_shape : gmap string value;
  adapter_id : string
}.

(** The adapter with another [validate]. *)
Definition set_validate (validate' : gmap string value → ValidationResult)
    (a : ValidationAdapter) : ValidationAdapter :=
  {| superFormValidationLibrary := superFormValidationLibrary a;
     validate := validate';
     adapter_jsonSchema := adapter_jsonSchema a;
     adapter_defaults := adapter_defaults a;
     adapter_constraints := adapter_constraints a;
     adapter_shape := adapter_shape a;
     adapter_id := adapter_id a |}.

(** The loop that keeps the keys of the schema:
    [for (const key of keys) if (key in d) outputData[key] = d[key]]. *)
Definition strip_keys (keys : list string) (d : gmap string value) : gmap string value :=
  foldl (λ outputData k,
           if has_property d k
           then set_property outputData k (get_property d k)
           else outputData) ∅ keys.

(** [await validator.validate(d)]: the call is recorded with its argument,
    and its result is the adapter's. *)
Definition invoke_validate (validator : ValidationAdapter) (d : gmap string value)
    : list (gmap string value) * ValidationResult :=
  ([d], validate validator d).

(** ** Statements the specification makes, in its own words *)

(** What the program finds when it tests [key in d] and then reads
    [d[key]]: the own property, else the member of [Object.prototype], else
    nothing. *)
Definition read_in (d : gmap string value) (k : string) : option value :=
  match d !! k with
  | Some v => Some v
  | None => if inherited k then Some (VPrototypeMember k) else None
  end.

(** "Keys not declared in the schema are stripped": the property [k] of the
    data of the result, given the reconciled data [d]. With
    [additionalProperties === false] a declared key has what is found in
    [d] for it, [__proto__] and the keys that are not declared have
    nothing; otherwise the data is [d]. *)
Definition kept_at (jsonSchema : JSONSchema) (d : gmap string value) (k : string)
    : option value :=
  if additionalProperties_false jsonSchema then
    if decide (k ∈ dom (schema_properties jsonSchema) ∧ k ≠ "__proto__")
    then read_in d k else None
  else d !! k.

(** The payload of a result of [message]. *)
Definition result_payload (r : MessageResult) : Payload :=
  match r with Plain p => p | Failed failure => data failure end.

(** "options.status is given and is at least 400" *)
Definition given_at_least_400 (st : option Z) : bool :=
  match st with Some n => bool_decide (400 ≤ n) | None => false end.

(** "Errors are to be added (options.errors, or strict mode, or parsed data
    present)", read as a disjunction. *)
Definition errors_to_be_added (options : option SuperValidateOptions)
    (parsed : ParsedData) : bool :=
  truthy (options ≫= opt_errors) || truthy (options ≫= opt_strict)
  || present (parsed_data parsed).

(** The same with the precedence the options have: [options.errors] decides
    when it is given; otherwise strict mode or parsed data do. *)
Definition errors_added (options : option SuperValidateOptions)
    (parsed : ParsedData) : bool :=
  match options ≫= opt_errors with
  | Some b => b
  | None => truthy (options ≫= opt_strict) || present (parsed_data parsed)
  end.

(** What a run of [superValidate] does: the arguments [validator.validate]
    was called with, in order, and the object returned. *)
Record Run : Type := {
  validate_calls : list (gmap string value);
  output : SuperValidated
}.

Section SuperValidate.

(** [RequestEvent | Request | FormData | URLSearchParams | URL]: the
    things [parseRequest] reads posted data from. *)
Context {Request : Type}.

Inductive SuperValidateData : Type :=
| FromRequest (r : Request)
| PlainData (d : MaybeData).

(** The two overloads: [superValidate(adapter, options?)] and
    [superValidate(data, adapter, options?)]. *)
Inductive SuperValidateCall : Type :=
| WithAdapter (adapter : ValidationAdapter) (options : option SuperValidateOptions)
| WithData (data : SuperValidateData) (adapter : ValidationAdapter)
    (options : option SuperValidateOptions).

(** The first lines of [superValidate]: a first argument that carries
    [superFormValidationLibrary] is the adapter, and the data is
    [undefined]. *)
Definition arguments (call : SuperValidateCall)
    : SuperValidateData * ValidationAdapter * option SuperValidateOptions :=
  match call with
  | WithAdapter adapter options => (PlainData DataUndefined, adapter, options)
  | WithData data adapter options => (data, adapter, options)
  end.

(** The functions [superValidate] imports from [./formData.js] and
    [./errors.js], which are not among the sources. *)
Variable parseRequest :
  SuperValidateData → JSONSchema → option SuperValidateOptions → ParsedData.
Variable mergeDefaults : MaybeData → gmap string value → gmap string value.
Variable replaceInvalidDefaults :
  gmap string value → gmap string value → JSONSchema →
  list ValidationIssue → option (list string) → gmap string value.
Variable mapErrors : list ValidationIssue → gmap string value → ValidationErrors.

Definition superValidate (call : SuperValidateCall) : Run :=
  let '(data, validator, options) := arguments call in
  let defaults := default (adapter_defaults validator) (options ≫= opt_defaults) in
  let jsonSchema := adapter_jsonSchema validator in
  let parsed := parseRequest data jsonSchema options in
  let strict := truthy (options ≫= opt_strict) in
  let addErrors :=
    match options ≫= opt_errors with
    | Some b => b
    | None => if strict then true else present (parsed_data parsed)
    end in
  let parsedData :=
    if strict then or_empty (parsed_data parsed)
    else mergeDefaults (parsed_data parsed) defaults in
  let '(calls, status) :=
    if present (parsed_data parsed) || addErrors
    then invoke_validate validator parsedData
    else ([], Failure []) in
  let valid := success status in
  let errors : ValidationErrors :=
    if valid || negb addErrors then ∅
    else mapErrors (issues_of status) (adapter_shape validator) in
  let dataWithDefaults :=
    match status with
    | Success validated => validated
    | Failure issues =>
        replaceInvalidDefaults
          (if strict then mergeDefaults (DataObject parsedData) defaults
           else parsedData)
          defaults jsonSchema issues (options ≫= opt_preprocessed)
    end in
  let outputData :=
    if additionalProperties_false jsonSchema then
      strip_keys (object_keys (schema_properties jsonSchema)) dataWithDefaults
    else dataWithDefaults in
  {| validate_calls := calls;
     output :=
       {| form_id :=
            default (default (adapter_id validator) (options ≫= opt_id))
                    (parsed_id parsed);
          form_valid := valid;
          form_posted := parsed_posted parsed;
          form_errors := Some errors;
          form_data := outputData;
          form_constraints := adapter_constraints validator;
          form_message := None;
          form_shape :=
            if decide (length (object_keys (adapter_shape validator)) = 0%nat)
            then None else Some (adapter_shape validator) |} |}.

(** *** The stages of [superValidate], as the specification names them *)

Definition validator_of (call : SuperValidateCall) : ValidationAdapter :=
  (arguments call).1.2.

Definition options_of (call : SuperValidateCall) : option SuperValidateOptions :=
  (arguments call).2.

(** The same call with an adapter that validates with [validate']. *)
Definition with_validate (validate' : gmap string value → ValidationResult)
    (call : SuperValidateCall) : SuperValidateCall :=
  match call with
  | WithAdapter adapter options => WithAdapter (set_validate validate' adapter) options
  | WithData data adapter options =>
      WithData data (set_validate validate' adapter) options
  end.

(** The parsed request of a call. *)
Definition parsed_request (call : SuperValidateCall) : ParsedData :=
  parseRequest (arguments call).1.1 (adapter_jsonSchema (validator_of call))
    (options_of call).

(** "Defaults come from options.defaults if given, else from the
    adapter." *)
Definition defaults_for (call : SuperValidateCall) : gmap string value :=
  match options_of call ≫= opt_defaults with
  | Some d => d
  | None => adapter_defaults (validator_of call)
  end.

(** "The data passed to the adapter's validate function": the parsed data
    merged with the defaults, or, in strict mode, the parsed data alone
    (the empty object when parsing yields nothing). *)
Definition data_to_validate (call : SuperValidateCall) : gmap string value :=
  if truthy (options_of call ≫= opt_strict) then
    match parsed_data (parsed_request call) with DataObject o => o | _ => ∅ end
  else mergeDefaults (parsed_data (parsed_request call)) (defaults_for call).

(** "The adapter's validate function is invoked (parsed data present, or
    errors requested)." *)
Definition validate_invoked (call : SuperValidateCall) : bool :=
  present (parsed_data (parsed_request call))
  || errors_added (options_of call) (parsed_request call).

(** The validation status: what the adapter returns when it is invoked,
    and otherwise "a failure with an empty issue list". *)
Definition validation_status (call : SuperValidateCall) : ValidationResult :=
  if validate_invoked call
  then validate (validator_of call) (data_to_validate call)
  else Failure [].

(** The reconciled data: "when validation succeeds, the adapter's
    validated output; when validation fails, replaceInvalidDefaults
    applied to the data, the defaults, the JSON schema, the validation
    issues, and the preprocessed fields", the defaults being merged into
    the data first in strict mode. *)
Definition reconciled_data (call : SuperValidateCall) : gmap string value :=
  match validation_status call with
  | Success validated => validated
  | Failure issues =>
      replaceInvalidDefaults
        (if truthy (options_of call ≫= opt_strict)
         then mergeDefaults (DataObject (data_to_validate call)) (defaults_for call)
         else data_to_validate call)
        (defaults_for call) (adapter_jsonSchema (validator_of call)) issues
        (options_of call ≫= opt_preprocessed)
  end.

End SuperValidate.

Arguments SuperValidateData : clear implicits.
Arguments SuperValidateCall : clear implicits.

(** ** Sample inputs *)

(** A schema [{ name: string }] that allows no other property. *)
Definition closed_schema : JSONSchema :=
  {[ "type" := VString "object";
     "properties" := VObject {[ "name" := VObject {[ "type" := VString "string" ]} ]};
     "additionalProperties" := VBool false ]}.

Definition required_issue : ValidationIssue :=
  {| issue_message := "Required"; issue_path := Some [KeyString "name"] |}.

(** An adapter for [{ name: string }] that hands back the objects it
    accepts and reports a missing name for the others. *)
Definition sample_adapter (accepts : gmap string value → bool)
    (jsonSchema : JSONSchema) : ValidationAdapter :=
  {| superFormValidationLibrary := "custom";
     validate := λ d, if accepts d then Success d else Failure [required_issue];
     adapter_jsonSchema := jsonSchema;
     adapter_defaults := {[ "name" := VString "" ]};
     adapter_constraints := ∅;
     adapter_shape := ∅;
     adapter_id := "form1" |}.

(** The object has a [name]. *)
Definition has_name (d : gmap string value) : bool :=
  bool_decide (is_Some (d !! "name")).

(** The object has a [name] that is a non-empty string. *)
Definition has_nonempty_name (d : gmap string value) : bool :=
  match d !! "name" with
  | Some (VString s) => negb (bool_decide (s = EmptyString))
  | _ => false
  end.

(** Stand-ins for the imported functions on the sample inputs. Data that is
    no request is the parsed data, not posted and without id. *)
Definition parse_plain (d : SuperValidateData Empty_set) (_ : JSONSchema)
    (_ : option SuperValidateOptions) : ParsedData :=
  match d with
  | FromRequest r => match r with end
  | PlainData d => {| parsed_id := None; parsed_posted := false; parsed_data := d |}
  end.

(** Without parsed data the defaults; otherwise the parsed properties over
    the defaults. *)
Definition merge_flat (d : MaybeData) (defaults : gmap string value) : gmap string value :=
  match d with
  | DataObject o => o ∪ defaults
  | _ => defaults
  end.

(** Nothing is replaced. *)
Definition replace_nothing (d _ : gmap string value) (_ : JSONSchema)
    (_ : list ValidationIssue) (_ : option (list string)) : gmap string value := d.

(** One message array per issue with a one-segment path. *)
Definition map_flat (issues : list ValidationIssue) (_ : gmap string value) : ValidationErrors :=
  foldr (λ i acc, match issue_path i with
                  | Some [KeyString k] => <[k := Messages [issue_message i]]> acc
                  | _ => acc
                  end) ∅ issues.

Definition sample_superValidate : SuperValidateCall Empty_set → Run :=
  superValidate parse_plain merge_flat replace_nothing map_flat.

Definition with_errors (b : bool) : SuperValidateOptions :=
  {| opt_errors := Some b; opt_id := None; opt_preprocessed := None;
     opt_defaults := None; opt_jsonSchema := None; opt_strict := None;
     opt_allowFiles := None |}.

Definition with_strict : SuperValidateOptions :=
  {| opt_errors := None; opt_id := None; opt_preprocessed := None;
     opt_defaults := None; opt_jsonSchema := None; opt_strict := Some true;
     opt_allowFiles := None |}.

Definition with_defaults (d : gmap string value) : SuperValidateOptions :=
  {| opt_errors := None; opt_id := None; opt_preprocessed := None;
     opt_defaults := Some d; opt_jsonSchema := None; opt_strict := None;
     opt_allowFiles := None |}.

(** [superValidate({}, adapter, { errors: false })]: posted data without a
    name, errors suppressed. *)
Definition suppressed_call : SuperValidateCall Empty_set :=
  WithData (PlainData (DataObject ∅)) (sample_adapter has_nonempty_name closed_schema)
    (Some (with_errors false)).

(** [superValidate({}, adapter, { strict: true })] with an adapter that only
    wants the [name] to be there. *)
Definition strict_call : SuperValidateCall Empty_set :=
  WithData (PlainData (DataObject ∅)) (sample_adapter has_name closed_schema)
    (Some with_strict).

(** [superValidate({ name: 'Ann', role: 'admin' }, adapter)]: data with a
    property the schema does not declare. *)
Definition extra_key_call : SuperValidateCall Empty_set :=
  WithData
    (PlainData (DataObject {[ "name" := VString "Ann"; "role" := VString "admin" ]}))
    (sample_adapter has_name closed_schema) None.

(** [superValidate(adapter, { defaults: { name: '', role: 'guest' } })]: no
    data, and defaults with a property the schema does not declare. *)
Definition defaults_only_call : SuperValidateCall Empty_set :=
  WithAdapter (sample_adapter has_name closed_schema)
    (Some (with_defaults {[ "name" := VString ""; "role" := VString "guest" ]})).

(** [superValidate(adapter)] *)
Definition adapter_only_call : SuperValidateCall Empty_set :=
  WithAdapter (sample_adapter has_nonempty_name closed_schema) None.

Definition sample_form : SuperValidated :=
  {| form_id := "form1"; form_valid := true; form_posted := true;
     form_errors := Some {[ "name" := Messages ["Required"] ]};
     form_data := {[ "name" := VString ""; "avatar" := VFile "me.png" ]};
     form_constraints := ∅; form_message := None; form_shape := None |}.

(** ** Reading a value along a path *)

(** One step into a value: a property name of an object, or an index of an
    array. *)
Inductive PathStep : Type :=
| AtKey (k : string)
| AtIndex (i : nat).

(** The own property a step leads to, if there is one. A hole of an array
    has none. *)
Definition value_step (v : value) (s : PathStep) : option value :=
  match v, s with
  | VObject fields, AtKey k => fields !! k
  | VArray items, AtIndex i => mjoin (items !! i)
  | _, _ => None
  end.

Fixpoint value_get (v : value) (path : list PathStep) : option value :=
  match path with
  | [] => Some v
  | s :: rest => value_step v s ≫= λ x, value_get x rest
  end.

(** ** The form after [setError] *)

(** [setError] changes the form in place and hands it on in the failure.
    This is the form to go on with, when the call returns and has left
    every object of the tree an object of this model. *)
Definition setError_form (form0 : SuperValidated) (call : SetErrorCall)
    : option SuperValidated :=
  match setError form0 call with
  | Returned failure => Some (form (data failure))
  | _ => None
  end.

(** The options of a call of [setError], after "unify signatures". *)
Definition setError_options (call : SetErrorCall) : SetErrorOptions :=
  (unify call).2.

(** What [set_at] puts at the first segment of a path, given what was
    there. *)
Definition set_at_entry (old : option ErrorTree) (rest : list string)
    (v : ErrorTree) : ErrorTree :=
  match rest with
  | [] => v
  | _ => Nested (set_at (match old with Some (Nested c) => c | _ => ∅ end) rest v)
  end.

(** ** More sample inputs *)

(** [superValidate({}, adapter)]: posted data without a name. *)
Definition invalid_call : SuperValidateCall Empty_set :=
  WithData (PlainData (DataObject ∅)) (sample_adapter has_nonempty_name closed_schema)
    None.

(** [superValidate({ name: 'Ann' }, adapter)] *)
Definition valid_call : SuperValidateCall Empty_set :=
  WithData (PlainData (DataObject {[ "name" := VString "Ann" ]}))
    (sample_adapter has_nonempty_name closed_schema) None.

(** A schema that allows no additional property and declares none. *)
Definition bare_schema : JSONSchema :=
  {[ "type" := VString "object"; "additionalProperties" := VBool false ]}.

Definition bare_call : SuperValidateCall Empty_set :=
  WithData (PlainData (DataObject {[ "name" := VString "Ann" ]}))
    (sample_adapter has_name bare_schema) None.

(** A schema that declares [name] and [toString] and allows no other
    property. *)
Definition toString_schema : JSONSchema :=
  {[ "type" := VString "object";
     "properties" :=
       VObject {[ "name" := VObject {[ "type" := VString "string" ]};
                  "toString" := VObject {[ "type" := VString "string" ]} ]};
     "additionalProperties" := VBool false ]}.

(** [superValidate({ name: 'Ann' }, adapter)] with this schema. *)
Definition toString_call : SuperValidateCall Empty_set :=
  WithData (PlainData (DataObject {[ "name" := VString "Ann" ]}))
    (sample_adapter has_name toString_schema) None.

(** The sample form without its upload. *)
Definition clean_form : SuperValidated :=
  {| form_id := "form1"; form_valid := true; form_posted := true;
     form_errors := Some {[ "name" := Messages ["Required"] ]};
     form_data := {[ "name" := VString "" ]};
     form_constraints := ∅; form_message := None; form_shape := None |}.

(** [{ user: { name: 'Ann', avatar: File }, files: [File, 'notes'] }] *)
Definition upload_value : value :=
  VObject
    {[ "user" := VObject {[ "name" := VString "Ann"; "avatar" := VFile "me.png" ]};
       "files" := VArray [Some (VFile "a.pdf"); Some (VString "notes")] ]}.

(** * Properties *)

(** ** Induction on values and on error trees *)

Lemma value_size_field (fields : gmap string value) k x :
  fields !! k = Some x → (value_size x < value_size (VObject fields))%nat.
Proof.
  simpl. revert k x.
  apply (map_fold_weak_ind
           (λ r (m : gmap string value),
              ∀ k x, m !! k = Some x → (value_size x < S r)%nat)).
  - intros k x Hk. by rewrite lookup_empty in Hk.
  - intros i y m r Hi IH k x Hk.
    destruct (decide (i = k)) as [->|Hne].
    + rewrite lookup_insert_eq in Hk. injection Hk as ->. lia.
    + rewrite lookup_insert_ne in Hk by done. specialize (IH k x Hk). lia.
Qed.

Lemma value_size_item (items : list (option value)) x :
  Some x ∈ items → (value_size x < value_size (VArray items))%nat.
Proof.
  simpl. induction items as [|slot items IH]; intros Hin.
  - by apply elem_of_nil in Hin.
  - apply elem_of_cons in Hin as [<-|Hin]; simpl.
    + lia.
    + specialize (IH Hin). destruct slot; lia.
Qed.

(** Induction on a value, with the hypothesis for every slot of an array
    and every property of an object. *)
Lemma value_nested_ind (P : value → Prop) :
  P VUndefined → P VNull → (∀ b, P (VBool b)) → (∀ n, P (VNumber n)) →
  (∀ s, P (VString s)) → (∀ name, P (VFile name)) →
  (∀ items, (∀ x, Some x ∈ items → P x) → P (VArray items)) →
  (∀ fields, map_Forall (λ _, P) fields → P (VObject fields)) →
  (∀ name, P (VPrototypeMember name)) →
  ∀ v, P v.
Proof.
  intros Hu Hn Hb Hz Hs Hf Harr Hobj Hmember v.
  remember (value_size v) as n eqn:Hsize. revert v Hsize.
  induction (lt_wf n) as [n _ IH]. intros v ->.
  destruct v; auto.
  - apply Harr. intros x Hin. eapply IH; [|reflexivity].
    by apply value_size_item.
  - apply Hobj. intros k x Hk. eapply IH; [|reflexivity].
    by eapply value_size_field.
Qed.

Lemma ErrorTree_size_field (fields : ValidationErrors) k x :
  fields !! k = Some x → (ErrorTree_size x < ErrorTree_size (Nested fields))%nat.
Proof.
  simpl. revert k x.
  apply (map_fold_weak_ind
           (λ r (m : ValidationErrors),
              ∀ k x, m !! k = Some x → (ErrorTree_size x < S r)%nat)).
  - intros k x Hk. by rewrite lookup_empty in Hk.
  - intros i y m r Hi IH k x Hk.
    destruct (decide (i = k)) as [->|Hne].
    + rewrite lookup_insert_eq in Hk. injection Hk as ->. lia.
    + rewrite lookup_insert_ne in Hk by done. specialize (IH k x Hk). lia.
Qed.

Lemma ErrorTree_nested_ind (P : ErrorTree → Prop) :
  (∀ msgs, P (Messages msgs)) →
  (∀ fields, map_Forall (λ _, P) fields → P (Nested fields)) →
  ∀ e, P e.
Proof.
  intros Hm Hn e.
  remember (ErrorTree_size e) as n eqn:Hsize. revert e Hsize.
  induction (lt_wf n) as [n _ IH]. intros e ->.
  destruct e; auto.
  apply Hn. intros k x Hk. eapply IH; [|reflexivity].
  by eapply ErrorTree_size_field.
Qed.

(** ** [removeFiles] *)

Lemma has_file_property_object (fields : gmap string value) :
  has_file_property (VObject fields) = false ↔
  map_Forall (λ _ x, is_file x = false ∧ has_file_property x = false) fields.
Proof.
  simpl.
  apply (map_fold_weak_ind
           (λ r (m : gmap string value),
              r = false ↔
              map_Forall (λ _ x, is_file x = false ∧ has_file_property x = false) m)).
  - split; [intros _; apply map_Forall_empty | done].
  - intros i x m r Hi IH.
    rewrite map_Forall_insert by done. rewrite <- IH.
    rewrite !orb_false_iff. tauto.
Qed.

Lemma has_file_property_array (items : list (option value)) :
  has_file_property (VArray items) = false ↔
  ∀ x, Some x ∈ items → is_file x = false ∧ has_file_property x = false.
Proof.
  simpl. induction items as [|slot items IH]; simpl.
  - split; [|done]. intros _ x Hin. by apply elem_of_nil in Hin.
  - rewrite orb_false_iff, IH. split.
    + intros [Hslot Hrest] x Hin.
      apply elem_of_cons in Hin as [<-|Hin]; [|by apply Hrest].
      by apply orb_false_iff in Hslot.
    + intros Hall. split.
      * destruct slot as [x|]; [|done].
        apply orb_false_iff, Hall, elem_of_cons. by left.
      * intros x Hin. apply Hall, elem_of_cons. by right.
Qed.

Lemma removeFiles_is_file v : is_file (removeFiles v) = is_file v.
Proof. by destruct v. Qed.

Lemma removeFiles_property_Some rec v y :
  removeFiles_property rec v = Some y → is_file v = false ∧ y = rec v.
Proof.
  unfold removeFiles_property. destruct (is_file v); [done|].
  intros [= <-]. done.
Qed.

(** After [removeFiles] no property holds a File, at any depth. *)
Lemma removeFiles_no_file v : has_file_property (removeFiles v) = false.
Proof.
  induction v as [| | | | | |items IH|fields IH|] using value_nested_ind;
    try reflexivity.
  - change (has_file_property
              (VArray ((λ slot, slot ≫= removeFiles_property removeFiles) <$> items))
            = false).
    apply has_file_property_array. intros y Hin.
    apply list_elem_of_fmap in Hin as ([x|] & Hy & Hin); [|done].
    symmetry in Hy. apply removeFiles_property_Some in Hy as [Hx ->].
    rewrite removeFiles_is_file. auto.
  - change (has_file_property
              (VObject (omap (removeFiles_property removeFiles) fields)) = false).
    apply has_file_property_object. intros k y Hk.
    apply lookup_omap_Some in Hk as (x & Hy & Hk).
    apply removeFiles_property_Some in Hy as [Hx ->].
    rewrite removeFiles_is_file. split; [done|]. by eapply IH.
Qed.

(** A value without File-valued properties is left as it is. *)
Lemma removeFiles_id v : has_file_property v = false → removeFiles v = v.
Proof.
  induction v as [| | | | | |items IH|fields IH|] using value_nested_ind;
    try reflexivity.
  - intros Hno. rewrite has_file_property_array in Hno.
    change (VArray ((λ slot, slot ≫= removeFiles_property removeFiles) <$> items)
            = VArray items).
    f_equal. rewrite <- (list_fmap_id items) at 2.
    apply Forall_fmap_ext_1, Forall_forall. intros [x|] Hin; [|done]. simpl.
    destruct (Hno x Hin) as [Hx Hfx].
    unfold removeFiles_property. rewrite Hx. f_equal. by apply IH.
  - intros Hno. rewrite has_file_property_object in Hno.
    change (VObject (omap (removeFiles_property removeFiles) fields) = VObject fields).
    f_equal. apply map_eq. intros k. rewrite lookup_omap.
    destruct (fields !! k) as [x|] eqn:Hk; [|done]. simpl.
    destruct (Hno k x Hk) as [Hx Hfx].
    unfold removeFiles_property. rewrite Hx. f_equal. by eapply IH.
Qed.

Lemma ErrorTree_value_no_file e :
  is_file (ErrorTree_value e) = false ∧ has_file_property (ErrorTree_value e) = false.
Proof.
  induction e as [msgs|fields IH] using ErrorTree_nested_ind.
  - split; [done|]. apply has_file_property_array. intros x Hin.
    apply list_elem_of_fmap in Hin as (s & Hx & _). by injection Hx as ->.
  - split; [done|].
    change (has_file_property (VObject (ErrorTree_value <$> fields)) = false).
    apply has_file_property_object. intros k x Hk.
    rewrite lookup_fmap in Hk.
    destruct (fields !! k) as [e|] eqn:He; [|done].
    injection Hk as <-. by eapply IH.
Qed.

Lemma removeFiles_property_keep v :
  is_file v = false → removeFiles_property removeFiles v = Some (removeFiles v).
Proof. unfold removeFiles_property. by intros ->. Qed.

Lemma removeFiles_errors (e : ValidationErrors) :
  removeFiles_property removeFiles (VObject (ErrorTree_value <$> e))
  = Some (VObject (ErrorTree_value <$> e)).
Proof.
  rewrite removeFiles_property_keep by done. f_equal.
  apply removeFiles_id. apply (ErrorTree_value_no_file (Nested e)).
Qed.

Lemma removeFiles_errors_fields (e : ValidationErrors) :
  omap (removeFiles_property removeFiles) (ErrorTree_value <$> e)
  = ErrorTree_value <$> e.
Proof.
  pose proof (removeFiles_errors e) as H.
  rewrite removeFiles_property_keep in H by done.
  by injection H.
Qed.

(** [removeFiles_form] is [removeFiles] on the object the form is. *)
Lemma removeFiles_form_value f :
  SuperValidated_value (removeFiles_form f) = removeFiles (SuperValidated_value f).
Proof.
  destruct f as [i v p e d c m s].
  unfold SuperValidated_value, removeFiles_form; simpl.
  f_equal. apply map_eq. intros k. rewrite lookup_omap.
  pose proof removeFiles_errors as Herr.
  destruct e as [e|], m as [m|], s as [s|]; simpl;
    unfold removeFiles_property at 1; simpl;
    try destruct (is_file m) eqn:Hm; simpl;
    repeat (rewrite lookup_insert; case_decide; subst; simpl);
    rewrite ?lookup_empty; simpl;
    rewrite ?Herr, ?removeFiles_errors_fields; try done;
    try (by unfold removeFiles_property; rewrite Hm).
Qed.

Lemma removeFiles_payload_value p :
  Payload_value (removeFiles_payload p) = removeFiles (Payload_value p).
Proof.
  unfold Payload_value, removeFiles_payload; simpl.
  f_equal. rewrite removeFiles_form_value.
  apply map_eq. intros k. rewrite lookup_omap.
  destruct (decide (k = "form")) as [->|Hne].
  - by rewrite !lookup_singleton_eq.
  - by rewrite !lookup_singleton_ne.
Qed.

Lemma removeFiles_payload_no_file p :
  has_file_property (Payload_value (removeFiles_payload p)) = false.
Proof. rewrite removeFiles_payload_value. apply removeFiles_no_file. Qed.

(** ** [message] *)

Lemma status_is_error_given st : status_is_error st = given_at_least_400 st.
Proof.
  destruct st as [n|]; [|done]. unfold status_is_error, given_at_least_400.
  destruct (Z.leb_spec 400 n).
  - rewrite bool_decide_eq_true_2 by done.
    destruct (Z.eqb_spec n 0); [lia|done].
  - rewrite bool_decide_eq_false_2 by lia. apply andb_false_r.
Qed.

Lemma set_valid_same form0 : set_valid (form_valid form0) form0 = form0.
Proof. by destruct form0. Qed.

(** C7. [message] sets [form.valid] to [false] exactly when
    [options.status] is given and is at least 400. It then returns the plain
    object [{ form }] when [form.valid] is still [true], and otherwise a
    fail result whose status is [options.status] if given, else 400. In both
    cases the payload has its File-valued properties removed unless
    [options.removeFiles] is [false]; when it is [false] the payload is the
    form with only [valid] and [message] updated. *)
Theorem message_result (form0 : SuperValidated) (msg : value)
    (options : option MessageOptions) :
  let st := options ≫= mo_status in
  let keep_files := bool_decide (options ≫= mo_removeFiles = Some false) in
  let valid1 := if given_at_least_400 st then false else form_valid form0 in
  let form1 := set_message msg (set_valid valid1 form0) in
  let payload :=
    if keep_files then {| form := form1 |}
    else {| form := removeFiles_form form1 |} in
  message form0 msg options
  = (if valid1 then Plain payload
     else Failed {| status := default 400 st; data := payload |})
  ∧ form_valid (form (result_payload (message form0 msg options))) = valid1
  ∧ (keep_files = false →
     has_file_property (Payload_value (result_payload (message form0 msg options)))
     = false).
Proof.
  intros st keep_files valid1 form1 payload.
  assert (Hform : (if status_is_error st then set_valid false form0 else form0)
                  = set_valid valid1 form0).
  { rewrite status_is_error_given. subst valid1.
    destruct (given_at_least_400 st); [done|]. by rewrite set_valid_same. }
  assert (Hremove : not_false (options ≫= mo_removeFiles) = negb keep_files).
  { subst keep_files. destruct (options ≫= mo_removeFiles) as [[|]|]; done. }
  assert (Hmsg : message form0 msg options
                 = (if valid1 then Plain payload
                    else Failed {| status := default 400 st; data := payload |})).
  { unfold message. fold st. rewrite Hform, Hremove. fold form1.
    change (form_valid form1) with valid1. subst payload.
    destruct valid1, keep_files; reflexivity. }
  split; [exact Hmsg|]. rewrite Hmsg. split.
  - subst payload. destruct valid1, keep_files; reflexivity.
  - intros Hkeep. subst payload. rewrite Hkeep.
    destruct valid1; apply (removeFiles_payload_no_file {| form := form1 |}).
Qed.

(** [message] on the sample form: the status 403 makes it a failure, and
    the uploaded file is gone from the payload. *)
Example message_sample :
  message sample_form (VString "Forbidden")
    (Some {| mo_status := Some 403; mo_removeFiles := None |})
  = Failed
      {| status := 403;
         data := {| form :=
           {| form_id := "form1"; form_valid := false; form_posted := true;
              form_errors := Some {[ "name" := Messages ["Required"] ]};
              form_data := {[ "name" := VString "" ]};
              form_constraints := ∅;
              form_message := Some (VString "Forbidden");
              form_shape := None |} |} |}.
Proof. vm_compute. reflexivity. Qed.

(** ** [setError] *)

Lemma plug_cons ancestor k ctx o :
  plug ((ancestor, k) :: ctx) o = plug ctx (<[k := Nested o]> ancestor).
Proof. reflexivity. Qed.

Lemma get_path_empty segments : segments ≠ [] → get_path ∅ segments = None.
Proof. destruct segments as [|k [|k' rest]]; simpl; by rewrite ?lookup_empty. Qed.

Lemma set_at_cons o k k' rest v :
  set_at o (k :: k' :: rest) v
  = <[k := Nested (set_at (match o !! k with Some (Nested c) => c | _ => ∅ end)
                          (k' :: rest) v)]> o.
Proof. reflexivity. Qed.

Lemma get_path_cons o k k' rest :
  get_path o (k :: k' :: rest)
  = match o !! k with Some (Nested c) => get_path c (k' :: rest) | _ => None end.
Proof. simpl. by destruct (o !! k) as [[msgs|c]|]. Qed.

Lemma own_value_read_slot (o : ValidationErrors) k :
  own_value (read_slot o k) = o !! k.
Proof. unfold read_slot. destruct (o !! k); [done|]. by destruct (inherited k). Qed.

Lemma inherited_proto : inherited "__proto__" = true.
Proof. reflexivity. Qed.

(** Where a read finds [undefined], an assignment makes an own property. *)
Lemma set_property_absent (o : ValidationErrors) k v :
  read_slot o k = Absent → set_property o k v = <[k := v]> o.
Proof.
  unfold read_slot, set_property, is_proto. intros Hread.
  destruct (o !! k) eqn:Hk; [done|].
  destruct (inherited k) eqn:Hin; [done|].
  rewrite bool_decide_eq_false_2; [done|].
  intros ->. by rewrite inherited_proto in Hin.
Qed.

(** The last write is an ordinary one on a leaf the path fits. *)
Lemma set_property_leaf (o : ValidationErrors) k v :
  fits o [k] = true →
  set_property o k v = <[k := v]> o
  ∧ is_proto k && negb (bool_decide (is_Some (o !! k))) = false.
Proof.
  cbn [fits]. unfold read_slot, set_property.
  destruct (o !! k) eqn:Hk.
  - intros _. rewrite (bool_decide_eq_true_2 (is_Some _)) by eauto.
    by rewrite andb_false_r.
  - rewrite (bool_decide_eq_false_2 (is_Some _)) by (by intros [? ?]).
    cbn [negb]. rewrite andb_true_r.
    destruct (inherited k) eqn:Hin; [|intros _].
    + intros ->%negb_true_iff. done.
    + destruct (is_proto k) eqn:Hproto; [|done].
      apply bool_decide_eq_true in Hproto. subst k.
      by rewrite inherited_proto in Hin.
Qed.

Lemma fits_cons o k k' rest :
  fits o (k :: k' :: rest)
  = match read_slot o k with
    | Absent => fits ∅ (k' :: rest)
    | Own (Nested child) => fits child (k' :: rest)
    | _ => false
    end.
Proof. cbn [fits]. by destruct (read_slot o k) as [[msgs|child]| |]. Qed.

(** The walk of [setError] reaches the last segment, on an object of the
    tree, when the path fits; the value it finds there is the one the tree
    has at the path, and writing [leaf.parent[leaf.key]] amounts to [set_at]
    on the tree. *)
Lemma traversePath_from_setError rest :
  ∀ ctx parent0 key0,
    fits parent0 (key0 :: rest) = true →
    ∃ leaf ctx',
      traversePath_from ctx parent0 key0 rest setError_modifier = Found leaf ctx'
      ∧ own_value (value_at leaf) = get_path parent0 (key0 :: rest)
      ∧ is_proto (key leaf) && negb (bool_decide (is_Some (parent leaf !! key leaf)))
        = false
      ∧ ∀ v, plug ctx' (set_property (parent leaf) (key leaf) v)
             = plug ctx (set_at parent0 (key0 :: rest) v).
Proof.
  induction rest as [|next rest IH]; intros ctx parent0 key0 Hfits.
  - eexists _, _. split; [reflexivity|]. cbn [value_at parent key].
    split; [by rewrite own_value_read_slot|].
    destruct (set_property_leaf parent0 key0 (Nested ∅) Hfits) as [_ Hplain].
    split; [exact Hplain|]. intros v.
    by destruct (set_property_leaf parent0 key0 v Hfits) as [-> _].
  - rewrite fits_cons in Hfits.
    cbn [traversePath_from]. unfold setError_modifier at 1.
    cbn [value_at parent key].
    destruct (read_slot parent0 key0) as [[msgs|child]| |] eqn:Hread;
      [done| |done|].
    + (* an object of the tree *)
      rewrite Hread.
      destruct (IH ((parent0, key0) :: ctx) child next Hfits)
        as (leaf & ctx' & Hwalk & Hvalue & Hplain & Hplug).
      exists leaf, ctx'. split; [exact Hwalk|].
      assert (Hown : parent0 !! key0 = Some (Nested child)).
      { by rewrite <- own_value_read_slot, Hread. }
      split; [|split; [exact Hplain|]].
      * rewrite Hvalue, get_path_cons. by rewrite Hown.
      * intros v. rewrite Hplug, plug_cons, set_at_cons. by rewrite Hown.
    + (* [undefined]: the callback makes the object *)
      rewrite set_property_absent by done.
      unfold read_slot at 1. rewrite lookup_insert_eq.
      destruct (IH ((<[key0 := Nested ∅]> parent0, key0) :: ctx) ∅ next Hfits)
        as (leaf & ctx' & Hwalk & Hvalue & Hplain & Hplug).
      exists leaf, ctx'. split; [exact Hwalk|].
      assert (Hown : parent0 !! key0 = None).
      { by rewrite <- own_value_read_slot, Hread. }
      split; [|split; [exact Hplain|]].
      * rewrite Hvalue, get_path_cons, Hown. by apply get_path_empty.
      * intros v. rewrite Hplug, plug_cons, insert_insert_eq, set_at_cons.
        by rewrite Hown.
Qed.

Lemma set_at_empty_chain segments v :
  segments ≠ [] → Nested (set_at ∅ segments v) = fresh_chain segments v.
Proof.
  induction segments as [|k rest IH]; [done|]. intros _.
  destruct rest as [|k' rest].
  - simpl. by rewrite insert_empty.
  - rewrite set_at_cons, lookup_empty, IH by done.
    by rewrite insert_empty.
Qed.

(** After [set_at] the path leads to the new value. *)
Lemma get_path_set_at segments :
  ∀ o v, segments ≠ [] → get_path (set_at o segments v) segments = Some v.
Proof.
  induction segments as [|k rest IH]; [done|]. intros o v _.
  destruct rest as [|k' rest].
  - simpl. by rewrite lookup_insert_eq.
  - rewrite set_at_cons, get_path_cons, lookup_insert_eq. by apply IH.
Qed.



Lemma set_at_tail o k rest v :
  rest ≠ [] →
  set_at o (k :: rest) v
  = <[k := Nested (set_at (match o !! k with Some (Nested c) => c | _ => ∅ end)
                          rest v)]> o.
Proof. destruct rest; [done|]. intros _. apply set_at_cons. Qed.

Lemma get_path_tail o k rest :
  rest ≠ [] →
  get_path o (k :: rest)
  = match o !! k with Some (Nested c) => get_path c rest | _ => None end.
Proof. destruct rest; [done|]. intros _. apply get_path_cons. Qed.

Lemma get_path_insert_ne o k k' x rest :
  k ≠ k' → get_path (<[k' := x]> o) (k :: rest) = get_path o (k :: rest).
Proof. intros Hne. simpl. by rewrite lookup_insert_ne. Qed.

(** A path that leaves the one written to is read as before. *)
Lemma get_path_set_at_other common :
  ∀ o k k' r r' v, k ≠ k' →
    get_path (set_at o (common ++ k' :: r') v) (common ++ k :: r)
    = get_path o (common ++ k :: r).
Proof.
  induction common as [|c common IH]; intros o k k' r r' v Hne.
  - simpl app. destruct r' as [|k'' r'].
    + by apply get_path_insert_ne.
    + rewrite set_at_cons. by apply get_path_insert_ne.
  - change ((c :: common) ++ k' :: r') with (c :: (common ++ k' :: r')).
    change ((c :: common) ++ k :: r) with (c :: (common ++ k :: r)).
    assert (common ++ k' :: r' ≠ []) by (by destruct common).
    assert (Hq : common ++ k :: r ≠ []) by (by destruct common).
    rewrite set_at_tail, !get_path_tail, lookup_insert_eq by done.
    rewrite IH by done.
    destruct (o !! c) as [[msgs|child]|];
      [by apply get_path_empty|done|by apply get_path_empty].
Qed.


Lemma splitPath_empty : splitPath EmptyString = [].
Proof. reflexivity. Qed.

(** On a tree the path fits, the call returns, and the errors after
    [setError] are the errors before with the path set to the merged
    messages. *)
Lemma setError_errors_set_at errors0 path errArr overwrite :
  splitPath path ≠ [] →
  fits errors0 (splitPath path) = true →
  setError_errors errors0 path errArr overwrite
  = Returned (set_at errors0 (splitPath path)
                (Messages (leaf_messages (get_path errors0 (splitPath path))
                                         overwrite errArr))).
Proof.
  intros Hsegments Hfits. unfold setError_errors.
  destruct (decide (path = EmptyString)) as [->|_]; [done|].
  unfold traversePath.
  destruct (splitPath path) as [|key0 rest]; [done|].
  destruct (traversePath_from_setError rest [] errors0 key0 Hfits)
    as (leaf & ctx' & -> & -> & -> & Hplug).
  cbv zeta. by rewrite Hplug.
Qed.

(** A path without segments: nothing is walked, and the error tree stays as
    it is. *)
Lemma setError_errors_no_segment errors0 path errArr overwrite :
  path ≠ EmptyString → splitPath path = [] →
  setError_errors errors0 path errArr overwrite = Returned errors0.
Proof.
  intros Hpath Hsplit. unfold setError_errors.
  rewrite decide_False by done. by rewrite Hsplit.
Qed.

(** [setError] in two steps: the error tree, then the failure. *)
Lemma setError_unfold form0 call :
  setError form0 call
  = Outcome_map
      (λ errors1,
         (if bool_decide (so_removeFiles (setError_options call) = Some false)
          then realFail else failAndRemoveFiles)
           (default 400 (so_status (setError_options call)))
           {| form := set_valid false (set_errors errors1 form0) |})
      (setError_errors (default ∅ (form_errors form0)) (unify call).1.1
         (errArr_of (unify call).1.2)
         (truthy (so_overwrite (setError_options call)))).
Proof.
  unfold setError, setError_options.
  destruct (unify call) as [[path error] options]. cbn [fst snd].
  destruct (setError_errors _ _ _ _) as [errors1|errors1| |]; try done;
    cbn [Outcome_map]; by destruct (so_removeFiles options) as [[|]|].
Qed.

Lemma setError_field_returned form0 path error options errors1 :
  setError_errors (default ∅ (form_errors form0)) path (errArr_of error)
    (truthy (options ≫= so_overwrite)) = Returned errors1 →
  ∃ failure,
    setError form0 (FieldLevel path error options) = Returned failure
    ∧ form_errors (form (data failure)) = Some errors1.
Proof.
  intros Hbody. rewrite setError_unfold.
  unfold setError_options. cbn [unify fst snd].
  assert (Hoverwrite :
    truthy (so_overwrite (default {| so_overwrite := None; so_status := None;
                                     so_removeFiles := None |} options))
    = truthy (options ≫= so_overwrite)) by (by destruct options).
  rewrite Hoverwrite, Hbody. cbn [Outcome_map].
  eexists. split; [reflexivity|]. by destruct (bool_decide _).
Qed.




(** Every path that leaves the one written to reads as before the call. *)
Lemma setError_keeps_other_paths errors0 path errArr overwrite common k k' r r' :
  splitPath path = common ++ k' :: r' →
  fits errors0 (splitPath path) = true →
  k ≠ k' →
  ∃ errors1,
    setError_errors errors0 path errArr overwrite = Returned errors1
    ∧ get_path errors1 (common ++ k :: r) = get_path errors0 (common ++ k :: r).
Proof.
  intros Hsplit Hfits Hne.
  assert (Hsegments : splitPath path ≠ []).
  { rewrite Hsplit. by destruct common. }
  eexists. split; [by apply setError_errors_set_at|].
  rewrite Hsplit. by apply get_path_set_at_other.
Qed.

(** A form-level error lands in [_errors]: appended to the messages that
    are there, or alone when there are none or with [overwrite]; appending
    to an object throws. *)
Lemma setError_form_level errors0 errArr overwrite :
  match errors0 !! "_errors" with
  | None =>
      setError_errors errors0 EmptyString errArr overwrite
      = Returned (<["_errors" := Messages errArr]> errors0)
  | Some (Messages old) =>
      setError_errors errors0 EmptyString errArr overwrite
      = Returned (<["_errors" := Messages (if overwrite then errArr else old ++ errArr)]>
                    errors0)
  | Some (Nested _) =>
      setError_errors errors0 EmptyString errArr overwrite
      = if overwrite then Returned (<["_errors" := Messages errArr]> errors0)
        else Thrown
  end.
Proof.
  unfold setError_errors. rewrite decide_True by done.
  destruct (errors0 !! "_errors") as [[old|child]|] eqn:Hold.
  - destruct overwrite; [done|]. by rewrite Hold.
  - destruct overwrite; [done|]. by rewrite Hold.
  - destruct overwrite; rewrite ?lookup_insert_eq, insert_insert_eq; done.
Qed.

(** [setError(form, 'name', ['Too short', 'Taken'])] appends to the
    messages of [name]; with [{ overwrite: true }] it replaces them. *)
Example setError_appends :
  form_errors <$> setError_form sample_form
                    (FieldLevel "name" (Strs ["Too short"; "Taken"]) None)
  = Some (Some {[ "name" := Messages ["Required"; "Too short"; "Taken"] ]}).
Proof. vm_compute. reflexivity. Qed.

Example setError_overwrites :
  form_errors <$> setError_form sample_form
                    (FieldLevel "name" (Str "Taken")
                       (Some {| so_overwrite := Some true; so_status := None;
                                so_removeFiles := None |}))
  = Some (Some {[ "name" := Messages ["Taken"] ]}).
Proof. vm_compute. reflexivity. Qed.

(** [setError(form, 'Not allowed', { status: 403 })]: a form-level error,
    the form invalid, the uploaded file removed from the payload. *)
Example setError_form_level_sample :
  setError sample_form
    (FormLevel (Str "Not allowed")
       (Some {| so_overwrite := None; so_status := Some 403;
                so_removeFiles := None |}))
  = Returned
      {| status := 403;
         data := {| form :=
           {| form_id := "form1"; form_valid := false; form_posted := true;
              form_errors :=
                Some {[ "name" := Messages ["Required"];
                        "_errors" := Messages ["Not allowed"] ]};
              form_data := {[ "name" := VString "" ]};
              form_constraints := ∅; form_message := None;
              form_shape := None |} |} |}.
Proof. vm_compute. reflexivity. Qed.

(** A path through the messages of [name], or through a member of
    [Object.prototype], takes the walk out of the tree. *)
Example setError_leaves_tree :
  setError sample_form (FieldLevel "name.first" (Str "Taken") None) = Unmodelled
  ∧ setError sample_form (FieldLevel "constructor.x" (Str "Taken") None)
    = Unmodelled.
Proof. split; reflexivity. Qed.

(** [setError(form, '__proto__', 'Taken')]: the assignment goes to the
    accessor of [Object.prototype]; the call returns, and the form has no
    own property of this name. *)
Example setError_proto :
  ∃ failure,
    setError sample_form (FieldLevel "__proto__" (Str "Taken") None)
    = PrototypeReplaced failure
    ∧ form_errors (form (data failure)) = form_errors sample_form.
Proof. eexists. split; reflexivity. Qed.

Example splitPath_sample :
  splitPath "tags[3].name" = ["tags"; "3"; "name"] ∧ splitPath "." = [].
Proof. split; reflexivity. Qed.

(** ** Stripping the keys that are not in the schema *)

Lemma read_in_has_property (d : gmap string value) k :
  (if has_property d k then Some (get_property d k) else None) = read_in d k.
Proof.
  unfold has_property, get_property, read_in.
  destruct (d !! k) as [v|] eqn:Hk.
  - by rewrite bool_decide_eq_true_2 by eauto.
  - rewrite bool_decide_eq_false_2 by (by intros [? ?]).
    by destruct (inherited k).
Qed.

Lemma set_property_lookup {A} (obj : gmap string A) k0 v k :
  obj !! "__proto__" = None →
  set_property obj k0 v !! k
  = if decide (k = k0 ∧ k0 ≠ "__proto__") then Some v else obj !! k.
Proof.
  intros Hproto. unfold set_property, is_proto.
  destruct (decide (k0 = "__proto__")) as [->|Hk0].
  - rewrite bool_decide_eq_true_2 by done.
    rewrite (bool_decide_eq_false_2 (is_Some _)) by (rewrite Hproto; by intros [? ?]).
    cbn [andb negb]. rewrite decide_False; [done|]. by intros [_ ?].
  - rewrite bool_decide_eq_false_2 by done. cbn [andb].
    destruct (decide (k = k0)) as [->|Hne].
    + rewrite decide_True by done. apply lookup_insert_eq.
    + rewrite decide_False by (by intros [? _]). by apply lookup_insert_ne.
Qed.

(** What the loop leaves under a key: what [key in d] and [d[key]] find,
    for the keys it runs over, [__proto__] excepted. *)
Lemma strip_keys_lookup keys (d : gmap string value) k :
  strip_keys keys d !! k
  = if decide (k ∈ keys ∧ k ≠ "__proto__") then read_in d k else None.
Proof.
  unfold strip_keys.
  assert (Hgen : ∀ acc : gmap string value,
    acc !! "__proto__" = None →
    foldl (λ outputData k0,
             if has_property d k0
             then set_property outputData k0 (get_property d k0)
             else outputData) acc keys !! k
    = if decide (k ∈ keys ∧ k ≠ "__proto__") then
        match read_in d k with Some v => Some v | None => acc !! k end
      else acc !! k).
  { induction keys as [|k0 keys IH]; intros acc Hacc.
    - cbn [foldl]. rewrite decide_False; [done|].
      intros [Hin _]. by apply elem_of_nil in Hin.
    - cbn [foldl].
      set (acc' := if has_property d k0
                   then set_property acc k0 (get_property d k0) else acc).
      assert (Hacc' : ∀ j, acc' !! j
                = if decide (j = k0 ∧ k0 ≠ "__proto__")
                  then match read_in d k0 with
                       | Some v => Some v
                       | None => acc !! j
                       end
                  else acc !! j).
      { intros j. subst acc'. rewrite <- read_in_has_property.
        destruct (has_property d k0).
        - rewrite set_property_lookup by done. reflexivity.
        - by destruct (decide (j = k0 ∧ k0 ≠ "__proto__")). }
      rewrite IH.
      2:{ rewrite Hacc'. rewrite decide_False; [done|]. by intros [<- ?]. }
      rewrite Hacc'.
      destruct (decide (k = k0)) as [->|Hne].
      + destruct (decide (k0 = "__proto__")) as [->|Hproto].
        * rewrite !decide_False by (by intros [_ ?]). done.
        * rewrite (decide_True (P := k0 = k0 ∧ _)) by done.
          rewrite (decide_True (P := k0 ∈ k0 :: keys ∧ _))
            by (split; [apply elem_of_cons; by left|done]).
          destruct (decide (k0 ∈ keys ∧ k0 ≠ "__proto__"));
            by destruct (read_in d k0).
      + rewrite (decide_False (P := k = k0 ∧ _)) by (by intros [? _]).
        destruct (decide (k ∈ keys ∧ k ≠ "__proto__")) as [[Hin Hp]|Hout].
        * rewrite decide_True; [done|]. split; [|done].
          apply elem_of_cons. by right.
        * rewrite decide_False; [done|]. intros [Hin Hp]. apply Hout.
          split; [|done]. apply elem_of_cons in Hin as [?|?]; done. }
  rewrite Hgen by apply lookup_empty. rewrite lookup_empty.
  destruct (decide _); [|done]. by destruct (read_in d k).
Qed.

Lemma elem_of_object_keys {A} (o : gmap string A) k :
  k ∈ object_keys o ↔ k ∈ dom o.
Proof.
  unfold object_keys. rewrite elem_of_dom, list_elem_of_fmap. split.
  - intros ([k' x] & -> & Hin). apply elem_of_map_to_list in Hin. by exists x.
  - intros [x Hx]. exists (k, x). split; [done|]. by apply elem_of_map_to_list.
Qed.

(** The data of the result, key by key. *)
Lemma strip_keys_kept_at (jsonSchema : JSONSchema) (d : gmap string value) k :
  (if additionalProperties_false jsonSchema
   then strip_keys (object_keys (schema_properties jsonSchema)) d
   else d) !! k
  = kept_at jsonSchema d k.
Proof.
  unfold kept_at. destruct (additionalProperties_false jsonSchema); [|done].
  rewrite strip_keys_lookup.
  destruct (decide (k ∈ dom (schema_properties jsonSchema) ∧ k ≠ "__proto__"))
    as [[Hin Hp]|Hout].
  - rewrite decide_True; [done|]. split; [|done]. by apply elem_of_object_keys.
  - rewrite decide_False; [done|]. intros [Hin Hp]. apply Hout.
    split; [|done]. by apply elem_of_object_keys.
Qed.

Lemma object_keys_length_0 {A} (o : gmap string A) :
  length (object_keys o) = 0%nat ↔ o = ∅.
Proof.
  unfold object_keys. rewrite length_fmap. split.
  - intros Hlen. apply map_to_list_empty_iff. by apply nil_length_inv.
  - intros ->. by rewrite map_to_list_empty.
Qed.

(** ** [superValidate] *)

Section SuperValidateProperties.

Context {Request : Type}.
Variable parseRequest :
  SuperValidateData Request → JSONSchema → option SuperValidateOptions → ParsedData.
Variable mergeDefaults : MaybeData → gmap string value → gmap string value.
Variable replaceInvalidDefaults :
  gmap string value → gmap string value → JSONSchema →
  list ValidationIssue → option (list string) → gmap string value.
Variable mapErrors : list ValidationIssue → gmap string value → ValidationErrors.

(** The object [superValidate] returns, stage by stage. *)
Lemma superValidate_stages (call : SuperValidateCall Request) :
  let validator := validator_of call in
  let options := options_of call in
  let parsed := parsed_request parseRequest call in
  let jsonSchema := adapter_jsonSchema validator in
  let status := validation_status parseRequest mergeDefaults call in
  let reconciled :=
    reconciled_data parseRequest mergeDefaults replaceInvalidDefaults call in
  superValidate parseRequest mergeDefaults replaceInvalidDefaults mapErrors call
  = {| validate_calls :=
         if validate_invoked parseRequest call
         then [data_to_validate parseRequest mergeDefaults call] else [];
       output :=
         {| form_id :=
              default (default (adapter_id validator) (options ≫= opt_id))
                      (parsed_id parsed);
            form_valid := success status;
            form_posted := parsed_posted parsed;
            form_errors :=
              Some (if success status || negb (errors_added options parsed)
                    then ∅
                    else mapErrors (issues_of status) (adapter_shape validator));
            form_data :=
              if additionalProperties_false jsonSchema
              then strip_keys (object_keys (schema_properties jsonSchema)) reconciled
              else reconciled;
            form_constraints := adapter_constraints validator;
            form_message := None;
            form_shape :=
              if decide (length (object_keys (adapter_shape validator)) = 0%nat)
              then None else Some (adapter_shape validator) |} |}.
Proof.
  destruct call as [validator options|d validator options];
    unfold superValidate, reconciled_data, validation_status, validate_invoked,
      data_to_validate, defaults_for, errors_added, parsed_request, validator_of,
      options_of, or_empty, arguments, invoke_validate; cbn [fst snd];
    destruct (options ≫= opt_strict) as [[|]|], (options ≫= opt_errors) as [[|]|],
      (options ≫= opt_defaults);
    cbn [truthy default from_option id orb];
    try destruct (present (parsed_data _));
    reflexivity.
Qed.

(** C2, amended. The issues of the adapter are mapped onto the error
    tree: when validation fails and errors are to be added, the [errors] of
    the result are [mapErrors] of the adapter's issues and of the schema
    shape; when validation succeeds or errors are not to be added, they are
    the empty object. Errors are to be added when [options.errors] is true,
    or, when [options.errors] is not given, in strict mode or when parsed
    data is present; [options.errors] being false suppresses them. *)
Theorem superValidate_errors (call : SuperValidateCall Request) :
  let out :=
    output (superValidate parseRequest mergeDefaults replaceInvalidDefaults
              mapErrors call) in
  let issues :=
    issues_of (validate (validator_of call)
                 (data_to_validate parseRequest mergeDefaults call)) in
  form_errors out
  = Some (if negb (form_valid out)
             && errors_added (options_of call) (parsed_request parseRequest call)
          then mapErrors issues (adapter_shape (validator_of call))
          else ∅).
Proof.
  cbv zeta. rewrite superValidate_stages. cbn [output form_errors form_valid].
  unfold validation_status, validate_invoked.
  destruct (errors_added _ _).
  - rewrite orb_true_r, orb_false_r, andb_true_r.
    by destruct (success _).
  - by rewrite orb_true_r, andb_false_r.
Qed.

(** C3. The data passed to the adapter's [validate] is, in non-strict
    mode, the parsed data merged with the defaults
    ([mergeDefaults(parsed.data, defaults)], the defaults being
    [options.defaults] if given and the adapter's otherwise), and in strict
    mode the parsed data alone, or the empty object when parsing yields
    nothing. When [validate] is invoked, this is the one argument it is
    called with, the [valid] of the result is the success flag it returns
    for this argument, and the result depends on [validate] through what it
    returns for this argument only; when it is not invoked, the result does
    not depend on [validate] at all. *)
Theorem superValidate_validated_data (call : SuperValidateCall Request) :
  let parsed := parsed_request parseRequest call in
  let defaults :=
    match options_of call ≫= opt_defaults with
    | Some d => d
    | None => adapter_defaults (validator_of call)
    end in
  let passed :=
    match options_of call ≫= opt_strict with
    | Some true =>
        match parsed_data parsed with DataObject o => o | _ => ∅ end
    | _ => mergeDefaults (parsed_data parsed) defaults
    end in
  let run :=
    superValidate parseRequest mergeDefaults replaceInvalidDefaults mapErrors call in
  if validate_invoked parseRequest call then
    validate_calls run = [passed]
    ∧ form_valid (output run) = success (validate (validator_of call) passed)
    ∧ ∀ validate' : gmap string value → ValidationResult,
        validate' passed = validate (validator_of call) passed →
        superValidate parseRequest mergeDefaults replaceInvalidDefaults mapErrors
          (with_validate validate' call) = run
  else
    validate_calls run = []
    ∧ ∀ validate' : gmap string value → ValidationResult,
        superValidate parseRequest mergeDefaults replaceInvalidDefaults mapErrors
          (with_validate validate' call) = run.
Proof.
  cbv zeta.
  assert (Hpassed :
    data_to_validate parseRequest mergeDefaults call
    = match options_of call ≫= opt_strict with
      | Some true =>
          match parsed_data (parsed_request parseRequest call) with
          | DataObject o => o
          | _ => ∅
          end
      | _ => mergeDefaults (parsed_data (parsed_request parseRequest call))
               match options_of call ≫= opt_defaults with
               | Some d => d
               | None => adapter_defaults (validator_of call)
               end
      end).
  { unfold data_to_validate, defaults_for.
    by destruct (options_of call ≫= opt_strict) as [[|]|]. }
  rewrite <- Hpassed.
  assert (Hsame : ∀ validate',
    validate_invoked parseRequest (with_validate validate' call)
    = validate_invoked parseRequest call
    ∧ data_to_validate parseRequest mergeDefaults (with_validate validate' call)
      = data_to_validate parseRequest mergeDefaults call).
  { intros validate'. by destruct call. }
  assert (Hrun : ∀ validate',
    validation_status parseRequest mergeDefaults (with_validate validate' call)
    = validation_status parseRequest mergeDefaults call →
    superValidate parseRequest mergeDefaults replaceInvalidDefaults mapErrors
      (with_validate validate' call)
    = superValidate parseRequest mergeDefaults replaceInvalidDefaults mapErrors call).
  { intros validate' Hstatus. rewrite !superValidate_stages.
    unfold reconciled_data. rewrite Hstatus.
    destruct (Hsame validate') as [-> ->]. by destruct call. }
  set (run := superValidate parseRequest mergeDefaults replaceInvalidDefaults
                mapErrors call) in *.
  assert (Hcalls :
    validate_calls run
    = if validate_invoked parseRequest call
      then [data_to_validate parseRequest mergeDefaults call] else []).
  { subst run. by rewrite superValidate_stages. }
  assert (Hvalid :
    form_valid (output run)
    = success (validation_status parseRequest mergeDefaults call)).
  { subst run. by rewrite superValidate_stages. }
  rewrite Hcalls, Hvalid. unfold validation_status at 1.
  destruct (validate_invoked parseRequest call) eqn:Hinvoked.
  - split; [done|]. split; [done|]. intros validate' Hagree.
    apply Hrun. unfold validation_status.
    destruct (Hsame validate') as [-> ->]. rewrite Hinvoked.
    rewrite <- Hagree. by destruct call.
  - split; [done|]. intros validate'. apply Hrun. unfold validation_status.
    destruct (Hsame validate') as [-> _]. by rewrite Hinvoked.
Qed.

(** C4, amended. When validation succeeds, the data of the result is the
    adapter's validated output; when it fails, it is [replaceInvalidDefaults]
    applied to the data handed to validation (with the defaults merged into
    it first in strict mode), the defaults, the JSON schema, the issues and
    the preprocessed fields. In both cases, when the schema has
    [additionalProperties === false], the data is rebuilt from the keys the
    schema declares: a declared key has what [key in] and a read find for it
    in that object, and no other key is kept. *)
Theorem superValidate_data (call : SuperValidateCall Request) :
  let out :=
    output (superValidate parseRequest mergeDefaults replaceInvalidDefaults
              mapErrors call) in
  let jsonSchema := adapter_jsonSchema (validator_of call) in
  let defaults := defaults_for call in
  let passed := data_to_validate parseRequest mergeDefaults call in
  match validation_status parseRequest mergeDefaults call with
  | Success validated =>
      form_valid out = true
      ∧ ∀ k, form_data out !! k = kept_at jsonSchema validated k
  | Failure issues =>
      form_valid out = false
      ∧ ∀ k, form_data out !! k
             = kept_at jsonSchema
                 (replaceInvalidDefaults
                    (if truthy (options_of call ≫= opt_strict)
                     then mergeDefaults (DataObject passed) defaults else passed)
                    defaults jsonSchema issues (options_of call ≫= opt_preprocessed))
                 k
  end.
Proof.
  cbv zeta. rewrite superValidate_stages. cbn [output form_valid form_data].
  unfold reconciled_data.
  destruct (validation_status parseRequest mergeDefaults call);
    (split; [done|]; intros k; apply strip_keys_kept_at).
Qed.

(** C5, amended. Whenever the adapter's [validate] is invoked, the [valid]
    flag of the result is the success flag [validate] returns on the data it
    is invoked with: the merged data in non-strict mode, the parsed data
    alone in strict mode. *)
Theorem superValidate_valid (call : SuperValidateCall Request)
    (d : gmap string value) :
  d ∈ validate_calls (superValidate parseRequest mergeDefaults
                        replaceInvalidDefaults mapErrors call) →
  d = data_to_validate parseRequest mergeDefaults call
  ∧ form_valid (output (superValidate parseRequest mergeDefaults
                          replaceInvalidDefaults mapErrors call))
    = success (validate (validator_of call) d).
Proof.
  rewrite superValidate_stages. cbn [validate_calls output form_valid].
  unfold validation_status.
  destruct (validate_invoked parseRequest call).
  - intros ->%list_elem_of_singleton. done.
  - intros []%elem_of_nil.
Qed.

(** C6. The result has the fields [id], [valid], [posted], [errors], [data]
    and [constraints], and [shape] exactly when the adapter's shape has at
    least one key; it has no other field. The id is the one parsed from the
    request, else [options.id], else the adapter's; the constraints and the
    shape are the adapter's. *)
Theorem superValidate_fields (call : SuperValidateCall Request) :
  let out :=
    output (superValidate parseRequest mergeDefaults replaceInvalidDefaults
              mapErrors call) in
  let validator := validator_of call in
  let parsed := parsed_request parseRequest call in
  let with_shape := bool_decide (1 ≤ size (adapter_shape validator))%nat in
  form_id out
  = match parsed_id parsed, options_of call ≫= opt_id with
    | Some i, _ => i
    | None, Some i => i
    | None, None => adapter_id validator
    end
  ∧ form_posted out = parsed_posted parsed
  ∧ form_constraints out = adapter_constraints validator
  ∧ form_shape out = (if with_shape then Some (adapter_shape validator) else None)
  ∧ ∃ fields,
      SuperValidated_value out = VObject fields
      ∧ dom fields
        = {[ "id"; "valid"; "posted"; "errors"; "data"; "constraints" ]}
          ∪ (if with_shape then {[ "shape" ]} else ∅).
Proof.
  cbv zeta. rewrite superValidate_stages.
  cbn [output form_id form_posted form_constraints form_shape].
  set (shape := adapter_shape (validator_of call)).
  assert (Hshape :
    (if decide (length (object_keys shape) = 0%nat) then None else Some shape)
    = if bool_decide (1 ≤ size shape)%nat then Some shape else None).
  { destruct (decide (length (object_keys shape) = 0%nat)) as [Hlen|Hlen].
    - apply object_keys_length_0 in Hlen. rewrite bool_decide_eq_false_2; [done|].
      rewrite Hlen, map_size_empty. lia.
    - rewrite bool_decide_eq_true_2; [done|].
      rewrite object_keys_length_0, <- map_size_empty_iff in Hlen. lia. }
  split; [by destruct (parsed_id _), (options_of call ≫= opt_id)|].
  split; [done|]. split; [done|]. split; [exact Hshape|].
  unfold SuperValidated_value.
  cbn [output form_id form_valid form_posted form_errors form_data
       form_constraints form_message form_shape].
  rewrite Hshape. eexists. split; [reflexivity|].
  destruct (bool_decide _); cbn [fmap option_fmap option_map optional_property];
    rewrite !dom_insert_L, dom_empty_L; set_solver.
Qed.

(** C8. When the schema has [additionalProperties === false], every key of
    the data of the result is a key of the schema's properties: the keys of
    the reconciled data that the schema does not declare are stripped, and
    a declared key of the reconciled data keeps its value ([__proto__]
    apart, which an assignment cannot make an own key); key by key the data
    is what [key in] and a read find in the reconciled data for the declared
    keys. Otherwise the data of the result is the reconciled data,
    unchanged. *)
Theorem superValidate_strips (call : SuperValidateCall Request) :
  let out :=
    output (superValidate parseRequest mergeDefaults replaceInvalidDefaults
              mapErrors call) in
  let jsonSchema := adapter_jsonSchema (validator_of call) in
  let reconciled :=
    reconciled_data parseRequest mergeDefaults replaceInvalidDefaults call in
  if additionalProperties_false jsonSchema then
    (∀ k, k ∈ dom (form_data out) → k ∈ dom (schema_properties jsonSchema))
    ∧ (∀ k, k ∉ dom (schema_properties jsonSchema) → form_data out !! k = None)
    ∧ (∀ k v, k ∈ dom (schema_properties jsonSchema) → k ≠ "__proto__" →
         reconciled !! k = Some v → form_data out !! k = Some v)
    ∧ (∀ k, form_data out !! k = kept_at jsonSchema reconciled k)
  else form_data out = reconciled.
Proof.
  cbv zeta. rewrite superValidate_stages. cbn [output form_data].
  pose proof (strip_keys_kept_at (adapter_jsonSchema (validator_of call))
                (reconciled_data parseRequest mergeDefaults replaceInvalidDefaults
                   call)) as Hkept.
  unfold kept_at in *.
  destruct (additionalProperties_false _); [|done].
  repeat split.
  - intros k [v Hk]%elem_of_dom. rewrite Hkept in Hk.
    destruct (decide _) as [[Hin _]|]; done.
  - intros k Hout. rewrite Hkept. rewrite decide_False; [done|]. by intros [? _].
  - intros k v Hin Hproto Hk. rewrite Hkept, decide_True by done.
    unfold read_in. by rewrite Hk.
  - exact Hkept.
Qed.

(** C9, amended. When the request yields no parsed data (falsy data, or a
    call with only an adapter), the mode is not strict and [options.errors]
    is not true, [validate] is never invoked: the result has [valid] false,
    [errors] the empty object, and as data the defaults reconciled by
    [replaceInvalidDefaults] with an empty issue list, rebuilt from the keys
    the schema declares when the schema has
    [additionalProperties === false]. *)
Theorem superValidate_without_data (call : SuperValidateCall Request) :
  let run :=
    superValidate parseRequest mergeDefaults replaceInvalidDefaults mapErrors call in
  let parsed := parsed_request parseRequest call in
  let options := options_of call in
  let jsonSchema := adapter_jsonSchema (validator_of call) in
  let defaults := defaults_for call in
  present (parsed_data parsed) = false →
  truthy (options ≫= opt_strict) = false →
  options ≫= opt_errors ≠ Some true →
  validate_calls run = []
  ∧ form_valid (output run) = false
  ∧ form_errors (output run) = Some ∅
  ∧ ∀ k, form_data (output run) !! k
         = kept_at jsonSchema
             (replaceInvalidDefaults (mergeDefaults (parsed_data parsed) defaults)
                defaults jsonSchema [] (options ≫= opt_preprocessed))
             k.
Proof.
  cbv zeta. intros Hdata Hstrict Herrors.
  rewrite superValidate_stages.
  cbn [validate_calls output form_valid form_errors form_data].
  assert (Hadd : errors_added (options_of call) (parsed_request parseRequest call)
                 = false).
  { unfold errors_added. rewrite Hstrict, Hdata.
    by destruct (options_of call ≫= opt_errors) as [[|]|]. }
  assert (Hinvoked : validate_invoked parseRequest call = false).
  { unfold validate_invoked. by rewrite Hdata, Hadd. }
  unfold reconciled_data, validation_status, data_to_validate.
  rewrite Hinvoked, Hadd, Hstrict.
  repeat split. intros k. apply strip_keys_kept_at.
Qed.

End SuperValidateProperties.

(** ** The sample calls *)

(** C2 as stated fails on [superValidate({}, adapter, { errors: false })]:
    parsed data is present and validation fails, yet the errors are the
    empty object and not the mapped issue. *)
Lemma superValidate_errors_suppressed :
  form_valid (output (sample_superValidate suppressed_call)) = false
  ∧ errors_to_be_added (options_of suppressed_call)
      (parsed_request parse_plain suppressed_call) = true
  ∧ form_errors (output (sample_superValidate suppressed_call)) = Some ∅
  ∧ map_flat
      (issues_of (validate (validator_of suppressed_call)
                    (data_to_validate parse_plain merge_flat suppressed_call)))
      (adapter_shape (validator_of suppressed_call))
    = {[ "name" := Messages ["Required"] ]}
  ∧ form_errors (output (sample_superValidate suppressed_call))
    ≠ Some (map_flat
              (issues_of (validate (validator_of suppressed_call)
                            (data_to_validate parse_plain merge_flat suppressed_call)))
              (adapter_shape (validator_of suppressed_call))).
Proof.
  repeat split; try (vm_compute; reflexivity).
  intros H. vm_compute in H. discriminate H.
Qed.

(** C4 as stated fails on
    [superValidate({ name: 'Ann', role: 'admin' }, adapter)] with a schema
    that declares [name] only: validation succeeds with both properties,
    and the data of the result has lost [role]. *)
Lemma superValidate_data_stripped :
  form_valid (output (sample_superValidate extra_key_call)) = true
  ∧ validate (validator_of extra_key_call)
      (data_to_validate parse_plain merge_flat extra_key_call)
    = Success {[ "name" := VString "Ann"; "role" := VString "admin" ]}
  ∧ form_data (output (sample_superValidate extra_key_call))
    = {[ "name" := VString "Ann" ]}
  ∧ form_data (output (sample_superValidate extra_key_call))
    ≠ {[ "name" := VString "Ann"; "role" := VString "admin" ]}.
Proof.
  repeat split; try (vm_compute; reflexivity).
  intros H. vm_compute in H. discriminate H.
Qed.

(** C5 as stated fails on [superValidate({}, adapter, { strict: true })]:
    [validate] is invoked on the parsed data alone and rejects it, while it
    accepts the merged data. *)
Lemma superValidate_valid_strict :
  validate_calls (sample_superValidate strict_call) = [∅]
  ∧ form_valid (output (sample_superValidate strict_call)) = false
  ∧ success (validate (validator_of strict_call)
               (merge_flat (parsed_data (parsed_request parse_plain strict_call))
                  (defaults_for strict_call)))
    = true.
Proof. repeat split; vm_compute; reflexivity. Qed.

(** C9 as stated fails on
    [superValidate(adapter, { defaults: { name: '', role: 'guest' } })] with
    a schema that declares [name] only: [validate] is not invoked, and the
    data of the result is the reconciled defaults without [role]. *)
Lemma superValidate_without_data_stripped :
  validate_calls (sample_superValidate defaults_only_call) = []
  ∧ replace_nothing
      (merge_flat (parsed_data (parsed_request parse_plain defaults_only_call))
         (defaults_for defaults_only_call))
      (defaults_for defaults_only_call)
      (adapter_jsonSchema (validator_of defaults_only_call)) []
      (options_of defaults_only_call ≫= opt_preprocessed)
    = {[ "name" := VString ""; "role" := VString "guest" ]}
  ∧ form_data (output (sample_superValidate defaults_only_call))
    = {[ "name" := VString "" ]}.
Proof. repeat split; vm_compute; reflexivity. Qed.

(** With a schema that declares [toString], [key in] finds the method that
    the validated data inherits from [Object.prototype], and the data of
    the result gets it as an own property. *)
Example superValidate_inherited_key :
  form_data (output (sample_superValidate toString_call))
  = {[ "name" := VString "Ann"; "toString" := VPrototypeMember "toString" ]}.
Proof. vm_compute. reflexivity. Qed.

(** [superValidate({}, adapter, { strict: true })]: the one call of
    [validate] decides [valid]. *)
Lemma superValidate_valid_witness :
  ∅ = data_to_validate parse_plain merge_flat strict_call
  ∧ form_valid (output (sample_superValidate strict_call))
    = success (validate (validator_of strict_call) ∅).
Proof.
  apply (superValidate_valid parse_plain merge_flat replace_nothing map_flat
           strict_call ∅).
  vm_compute. constructor.
Defined.

(** [superValidate(adapter)]: nothing is validated, and the result carries
    the defaults. *)
Lemma superValidate_without_data_witness :
  validate_calls (sample_superValidate adapter_only_call) = []
  ∧ form_valid (output (sample_superValidate adapter_only_call)) = false
  ∧ form_errors (output (sample_superValidate adapter_only_call)) = Some ∅
  ∧ form_data (output (sample_superValidate adapter_only_call)) !! "name"
    = Some (VString "")
  ∧ form_data (output (sample_superValidate adapter_only_call)) !! "role" = None.
Proof.
  pose proof (superValidate_without_data parse_plain merge_flat replace_nothing
                map_flat adapter_only_call eq_refl eq_refl ltac:(discriminate))
    as (Hcalls & Hvalid & Herrors & Hdata).
  split; [exact Hcalls|]. split; [exact Hvalid|]. split; [exact Herrors|].
  unfold sample_superValidate. rewrite !Hdata. split; vm_compute; reflexivity.
Defined.

(** * Further properties *)

(** ** [removeFiles] *)

Lemma value_step_removeFiles v s :
  value_step (removeFiles v) s
  = value_step v s ≫= removeFiles_property removeFiles.
Proof.
  destruct v as [| | | | | |items|fields|], s as [k|i]; try reflexivity.
  - change (mjoin (((λ slot, slot ≫= removeFiles_property removeFiles) <$> items) !! i)
            = mjoin (items !! i) ≫= removeFiles_property removeFiles).
    rewrite list_lookup_fmap. by destruct (items !! i) as [[x|]|].
  - change (omap (removeFiles_property removeFiles) fields !! k
            = fields !! k ≫= removeFiles_property removeFiles).
    apply lookup_omap.
Qed.

Lemma value_step_file v s : is_file v = true → value_step v s = None.
Proof. by destruct v, s. Qed.

Lemma value_get_file v path : is_file v = true → path ≠ [] → value_get v path = None.
Proof.
  destruct path as [|s rest]; [done|]. intros Hfile _. simpl.
  by rewrite value_step_file.
Qed.

Lemma value_get_removeFiles path :
  ∀ v, path ≠ [] →
    value_get (removeFiles v) path
    = value_get v path ≫= removeFiles_property removeFiles.
Proof.
  induction path as [|s rest IH]; [done|]. intros v _.
  cbn [value_get]. rewrite value_step_removeFiles.
  destruct (value_step v s) as [x|]; [|done]. cbn [mbind option_bind].
  destruct rest as [|s' rest].
  - simpl. by destruct (removeFiles_property removeFiles x).
  - unfold removeFiles_property at 1. destruct (is_file x) eqn:Hx.
    + by rewrite (value_get_file x (s' :: rest)).
    + by apply IH.
Qed.

(** X1. After [removeFiles] no property holds a File, at any depth and for
    any value: nothing that can be read along a non-empty path of the
    result is a File. *)
Theorem removeFiles_leaves_no_file (v : value) :
  has_file_property (removeFiles v) = false
  ∧ ∀ path x, path ≠ [] → value_get (removeFiles v) path = Some x →
      is_file x = false.
Proof.
  split; [apply removeFiles_no_file|].
  intros path x Hpath Hget. rewrite value_get_removeFiles in Hget by done.
  destruct (value_get v path) as [y|]; [|done].
  apply removeFiles_property_Some in Hget as [Hy ->].
  by rewrite removeFiles_is_file.
Qed.

(** X2. [removeFiles] changes a value exactly when some property of it
    holds a File. *)
Theorem removeFiles_unchanged_iff (v : value) :
  removeFiles v = v ↔ has_file_property v = false.
Proof.
  split.
  - intros Hsame. rewrite <- Hsame. apply removeFiles_no_file.
  - apply removeFiles_id.
Qed.

(** X3. [removeFiles] is idempotent: cleaning a cleaned value changes
    nothing. *)
Theorem removeFiles_idempotent (v : value) :
  removeFiles (removeFiles v) = removeFiles v.
Proof. apply removeFiles_id, removeFiles_no_file. Qed.

(** X4. [removeFiles] removes nothing but Files and moves nothing: reading
    a non-empty path in the result gives the cleaned value that was at this
    path, and nothing where a File was or where nothing was. *)
Theorem removeFiles_reads (v : value) (path : list PathStep) :
  path ≠ [] →
  value_get (removeFiles v) path
  = match value_get v path with
    | Some x => if is_file x then None else Some (removeFiles x)
    | None => None
    end.
Proof. intros Hpath. by rewrite value_get_removeFiles. Qed.

Lemma removeFiles_reads_witness :
  value_get (removeFiles upload_value) [AtKey "user"; AtKey "name"]
  = Some (VString "Ann")
  ∧ value_get (removeFiles upload_value) [AtKey "user"; AtKey "avatar"] = None
  ∧ value_get (removeFiles upload_value) [AtKey "files"; AtIndex 1]
    = Some (VString "notes").
Proof.
  split; [|split].
  - by rewrite (removeFiles_reads upload_value [AtKey "user"; AtKey "name"]).
  - by rewrite (removeFiles_reads upload_value [AtKey "user"; AtKey "avatar"]).
  - by rewrite (removeFiles_reads upload_value [AtKey "files"; AtIndex 1]).
Defined.

(** ** [failAndRemoveFiles] *)

Lemma removeFiles_object_id (o : gmap string value) :
  has_file_property (VObject o) = false → removeFiles_object o = o.
Proof.
  intros Hno. apply removeFiles_id in Hno.
  change (VObject (removeFiles_object o) = VObject o) in Hno. by injection Hno.
Qed.

Lemma removeFiles_form_id f :
  has_file_property (SuperValidated_value f) = false → removeFiles_form f = f.
Proof.
  destruct f as [i v p e d c m s]. intros Hno.
  apply has_file_property_object in Hno.
  assert (Hd : removeFiles_object d = d).
  { apply removeFiles_object_id.
    apply (Hno "data" (VObject d)). by destruct e, m, s. }
  assert (Hc : removeFiles_object c = c).
  { apply removeFiles_object_id.
    apply (Hno "constraints" (VObject c)). by destruct e, m, s. }
  assert (Hm : m ≫= removeFiles_property removeFiles = m).
  { destruct m as [m|]; [|done]. simpl.
    destruct (Hno "message" m) as [Hfile Hin]; [by destruct e, s|].
    rewrite removeFiles_property_keep by done. f_equal. by apply removeFiles_id. }
  assert (Hs : removeFiles_object <$> s = s).
  { destruct s as [s|]; [|done]. simpl. f_equal.
    apply removeFiles_object_id.
    apply (Hno "shape" (VObject s)). by destruct e, m. }
  unfold removeFiles_form.
  cbn [form_id form_valid form_posted form_errors form_data form_constraints
       form_message form_shape].
  by rewrite Hd, Hc, Hm, Hs.
Qed.

(** X5. On a payload without File-valued properties [failAndRemoveFiles] is
    [fail]: status and payload are handed on as they are. *)
Theorem failAndRemoveFiles_clean (st : Z) (p : Payload) :
  has_file_property (Payload_value p) = false →
  failAndRemoveFiles st p = realFail st p.
Proof.
  intros Hno. apply has_file_property_object in Hno.
  destruct (Hno "form" (SuperValidated_value (form p))) as [_ Hform].
  { apply lookup_singleton_eq. }
  unfold failAndRemoveFiles, removeFiles_payload.
  rewrite removeFiles_form_id by done. by destruct p.
Qed.

Lemma failAndRemoveFiles_clean_witness :
  failAndRemoveFiles 400 {| form := clean_form |}
  = realFail 400 {| form := clean_form |}.
Proof.
  apply (failAndRemoveFiles_clean 400 {| form := clean_form |}).
  vm_compute. reflexivity.
Defined.

(** ** [setError], continued *)

Lemma setError_form_field form0 path error options errors1 :
  setError_errors (default ∅ (form_errors form0)) path (errArr_of error)
    (truthy (options ≫= so_overwrite)) = Returned errors1 →
  ∃ form1,
    setError_form form0 (FieldLevel path error options) = Some form1
    ∧ form_errors form1 = Some errors1.
Proof.
  intros Hbody.
  destruct (setError_field_returned form0 path error options errors1 Hbody)
    as (failure & Hcall & Herrors).
  exists (form (data failure)). unfold setError_form. by rewrite Hcall.
Qed.

(** X6. Whenever [setError] returns, the form in the failure is invalid,
    the status is [options.status], or 400 when none is given, and the id
    and the posted flag of the form are as before; with
    [removeFiles: false] the data, the constraints, the message and the
    shape are as before too. *)
Theorem setError_invalidates (form0 : SuperValidated) (call : SetErrorCall)
    (failure : ActionFailure) :
  returned (setError form0 call) = Some failure →
  form_valid (form (data failure)) = false
  ∧ status failure
    = match so_status (setError_options call) with Some st => st | None => 400 end
  ∧ form_id (form (data failure)) = form_id form0
  ∧ form_posted (form (data failure)) = form_posted form0
  ∧ (so_removeFiles (setError_options call) = Some false →
     form_data (form (data failure)) = form_data form0
     ∧ form_constraints (form (data failure)) = form_constraints form0
     ∧ form_message (form (data failure)) = form_message form0
     ∧ form_shape (form (data failure)) = form_shape form0).
Proof.
  rewrite setError_unfold.
  destruct (setError_errors _ _ _ _) as [errors1|errors1| |]; [| |done|done];
    cbn [Outcome_map returned]; intros [= <-];
    destruct (so_status (setError_options call)) as [st|];
    (case_bool_decide as Hkeep; repeat split; try done;
     intros Hfalse; by rewrite Hfalse in Hkeep).
Qed.

Lemma setError_invalidates_witness :
  ∃ failure,
    setError sample_form (FormLevel (Str "Not allowed") None) = Returned failure
    ∧ form_valid (form (data failure)) = false
    ∧ status failure = 400.
Proof.
  eexists. split; [reflexivity|].
  pose proof (setError_invalidates sample_form (FormLevel (Str "Not allowed") None)
                _ eq_refl) as (Hvalid & Hstatus & _).
  split; [exact Hvalid|exact Hstatus].
Defined.

(** X7. Unless [options.removeFiles] is [false], the payload of the failure
    [setError] returns holds no File, at any depth. *)
Theorem setError_payload_no_file (form0 : SuperValidated) (call : SetErrorCall)
    (failure : ActionFailure) :
  returned (setError form0 call) = Some failure →
  so_removeFiles (setError_options call) ≠ Some false →
  has_file_property (Payload_value (data failure)) = false.
Proof.
  rewrite setError_unfold.
  destruct (setError_errors _ _ _ _) as [errors1|errors1| |]; [| |done|done];
    cbn [Outcome_map returned]; intros [= <-] Hremove;
    rewrite bool_decide_eq_false_2 by done;
    apply removeFiles_payload_no_file.
Qed.

Lemma setError_payload_no_file_witness :
  ∃ failure,
    setError sample_form (FieldLevel "name" (Str "Taken") None) = Returned failure
    ∧ has_file_property (Payload_value (data failure)) = false.
Proof.
  eexists. split; [reflexivity|].
  by apply (setError_payload_no_file sample_form
              (FieldLevel "name" (Str "Taken") None)).
Defined.

(** X8. A call without a path, or with the path [''], records a form-level
    error under [_errors] and touches no other key of the error tree: the
    messages are appended to those that are there, and stand alone when
    there are none or when [options.overwrite] is true. *)
Theorem setError_form_level_errors (form0 : SuperValidated)
    (error : StringOrArray) (options : option SetErrorOptions)
    (old : option (list string)) :
  let errors0 := default ∅ (form_errors form0) in
  let stored :=
    match old with
    | Some msgs =>
        if truthy (options ≫= so_overwrite) then errArr_of error
        else msgs ++ errArr_of error
    | None => errArr_of error
    end in
  errors0 !! "_errors" = Messages <$> old →
  ∃ form1,
    setError_form form0 (FormLevel error options) = Some form1
    ∧ setError_form form0 (FieldLevel EmptyString error options) = Some form1
    ∧ form_errors form1 = Some (<["_errors" := Messages stored]> errors0).
Proof.
  intros errors0 stored Hold.
  assert (Hbody :
    setError_errors errors0 EmptyString (errArr_of error)
      (truthy (options ≫= so_overwrite))
    = Returned (<["_errors" := Messages stored]> errors0)).
  { pose proof (setError_form_level errors0 (errArr_of error)
                  (truthy (options ≫= so_overwrite))) as Hlevel.
    rewrite Hold in Hlevel. subst stored. by destruct old. }
  destruct (setError_form_field form0 EmptyString error options _ Hbody)
    as (form1 & Hcall & Herrors).
  exists form1. split; [exact Hcall|]. split; [exact Hcall|exact Herrors].
Qed.

Lemma setError_form_level_errors_witness :
  ∃ form1,
    setError_form sample_form (FormLevel (Str "Not allowed") None) = Some form1
    ∧ form_errors form1
      = Some {[ "name" := Messages ["Required"];
                "_errors" := Messages ["Not allowed"] ]}.
Proof.
  destruct (setError_form_level_errors sample_form (Str "Not allowed") None None
              eq_refl) as (form1 & Hcall & _ & Herrors).
  exists form1. split; [exact Hcall|]. rewrite Herrors. vm_compute. reflexivity.
Defined.

Lemma set_at_head o k rest v :
  set_at o (k :: rest) v = <[k := set_at_entry (o !! k) rest v]> o.
Proof. by destruct rest. Qed.

Lemma fits_tail o k rest :
  rest ≠ [] →
  fits o (k :: rest)
  = match read_slot o k with
    | Absent => fits ∅ rest
    | Own (Nested c) => fits c rest
    | _ => false
    end.
Proof. destruct rest; [done|]. intros _. apply fits_cons. Qed.

Lemma read_slot_insert_eq (o : ValidationErrors) k t :
  read_slot (<[k := t]> o) k = Own t.
Proof. unfold read_slot. by rewrite lookup_insert_eq. Qed.

Lemma read_slot_insert_ne (o : ValidationErrors) k k' t :
  k ≠ k' → read_slot (<[k' := t]> o) k = read_slot o k.
Proof. intros Hne. unfold read_slot. by rewrite lookup_insert_ne. Qed.

(** After a write the tree still fits the path written to. *)
Lemma fits_set_at segments :
  ∀ o v, fits o segments = true → fits (set_at o segments v) segments = true.
Proof.
  induction segments as [|k rest IH]; [done|]. intros o v Hfits.
  destruct rest as [|k' rest].
  - cbn [set_at fits]. by rewrite read_slot_insert_eq.
  - rewrite fits_cons in Hfits.
    rewrite set_at_cons, fits_cons, read_slot_insert_eq. apply IH.
    unfold read_slot in Hfits.
    destruct (o !! k) as [[msgs|child]|]; [done|done|].
    by destruct (inherited k).
Qed.

Lemma fits_insert_ne o k k' x rest :
  k ≠ k' → fits (<[k' := x]> o) (k :: rest) = fits o (k :: rest).
Proof. intros Hne. cbn [fits]. by rewrite read_slot_insert_ne. Qed.

(** Writing to a path keeps the tree fit for a path that leaves it. *)
Lemma fits_set_at_other common :
  ∀ o k k' r r' v, k ≠ k' →
    fits o (common ++ k :: r) = true →
    fits (set_at o (common ++ k' :: r') v) (common ++ k :: r) = true.
Proof.
  induction common as [|c common IH]; intros o k k' r r' v Hne Hfits.
  - simpl app in *. rewrite set_at_head. by rewrite fits_insert_ne.
  - change ((c :: common) ++ k' :: r') with (c :: (common ++ k' :: r')).
    change ((c :: common) ++ k :: r) with (c :: (common ++ k :: r)) in *.
    assert (common ++ k' :: r' ≠ []) by (by destruct common).
    assert (common ++ k :: r ≠ []) by (by destruct common).
    rewrite fits_tail in Hfits by done.
    rewrite set_at_tail, fits_tail, read_slot_insert_eq by done.
    apply IH; [done|]. unfold read_slot in Hfits.
    destruct (o !! c) as [[msgs|child]|]; [done|done|].
    by destruct (inherited c).
Qed.

(** Writes to two paths that part at some segment can be swapped. *)
Lemma set_at_commute common :
  ∀ o k k' r r' v w, k ≠ k' →
    set_at (set_at o (common ++ k :: r) v) (common ++ k' :: r') w
    = set_at (set_at o (common ++ k' :: r') w) (common ++ k :: r) v.
Proof.
  induction common as [|c common IH]; intros o k k' r r' v w Hne.
  - simpl app. rewrite !set_at_head.
    rewrite !lookup_insert_ne by done. by apply insert_insert_ne.
  - change ((c :: common) ++ k' :: r') with (c :: (common ++ k' :: r')).
    change ((c :: common) ++ k :: r) with (c :: (common ++ k :: r)).
    assert (common ++ k' :: r' ≠ []) by (by destruct common).
    assert (common ++ k :: r ≠ []) by (by destruct common).
    rewrite !(set_at_tail _ c) by done.
    rewrite !lookup_insert_eq, !insert_insert_eq. by rewrite IH.
Qed.

(** X9. Setting an error at a path leaves every path that parts from it
    as it was: on a tree the path fits, what is read at a path that shares
    a prefix with the written one and then goes on with another key is the
    same before and after [setError]. *)
Theorem setError_other_paths (form0 : SuperValidated) (path : string)
    (error : StringOrArray) (options : option SetErrorOptions)
    (common : list string) (k k' : string) (r r' : list string) :
  let errors0 := default ∅ (form_errors form0) in
  splitPath path = common ++ k' :: r' →
  fits errors0 (splitPath path) = true →
  k ≠ k' →
  ∃ form1 errors1,
    setError_form form0 (FieldLevel path error options) = Some form1
    ∧ form_errors form1 = Some errors1
    ∧ get_path errors1 (common ++ k :: r) = get_path errors0 (common ++ k :: r).
Proof.
  intros errors0 Hsplit Hfits Hne.
  destruct (setError_keeps_other_paths errors0 path (errArr_of error)
              (truthy (options ≫= so_overwrite)) common k k' r r'
              Hsplit Hfits Hne) as (errors1 & Hbody & Hread).
  destruct (setError_form_field form0 path error options errors1 Hbody)
    as (form1 & Hcall & Herrors).
  by exists form1, errors1.
Qed.

Lemma setError_other_paths_witness :
  ∃ form1 errors1,
    setError_form sample_form (FieldLevel "address.city" (Str "Unknown city") None)
    = Some form1
    ∧ form_errors form1 = Some errors1
    ∧ get_path errors1 ["name"] = Some (Messages ["Required"]).
Proof.
  apply (setError_other_paths sample_form "address.city" (Str "Unknown city") None
           [] "name" "address" [] ["city"]); [reflexivity|reflexivity|done].
Defined.

(** X10. Errors accumulate over calls: after two calls of [setError] with
    the same path, the path holds what the first call stored followed by
    the messages of the second, or the messages of the second alone when
    the second call has [overwrite: true]. *)
Theorem setError_accumulates (form0 : SuperValidated) (path : string)
    (error1 error2 : StringOrArray) (options1 options2 : option SetErrorOptions) :
  let segments := splitPath path in
  let errors0 := default ∅ (form_errors form0) in
  let stored1 :=
    leaf_messages (get_path errors0 segments)
      (truthy (options1 ≫= so_overwrite)) (errArr_of error1) in
  segments ≠ [] →
  fits errors0 segments = true →
  ∃ form1 form2 errors2,
    setError_form form0 (FieldLevel path error1 options1) = Some form1
    ∧ setError_form form1 (FieldLevel path error2 options2) = Some form2
    ∧ form_errors form2 = Some errors2
    ∧ get_path errors2 segments
      = Some (Messages (if truthy (options2 ≫= so_overwrite)
                        then errArr_of error2
                        else stored1 ++ errArr_of error2)).
Proof.
  intros segments errors0 stored1 Hsegments Hfits.
  pose (errors1 := set_at errors0 segments (Messages stored1)).
  assert (Hbody1 :
    setError_errors errors0 path (errArr_of error1)
      (truthy (options1 ≫= so_overwrite)) = Returned errors1).
  { by rewrite setError_errors_set_at. }
  destruct (setError_form_field form0 path error1 options1 errors1 Hbody1)
    as (form1 & Hcall1 & Herrors1).
  assert (Hbody2 :
    setError_errors (default ∅ (form_errors form1)) path (errArr_of error2)
      (truthy (options2 ≫= so_overwrite))
    = Returned (set_at errors1 segments
              (Messages (if truthy (options2 ≫= so_overwrite)
                         then errArr_of error2
                         else stored1 ++ errArr_of error2)))).
  { rewrite Herrors1. cbn [default from_option id].
    rewrite setError_errors_set_at; [|done|by apply fits_set_at].
    fold segments. subst errors1. by rewrite get_path_set_at. }
  destruct (setError_form_field form1 path error2 options2 _ Hbody2)
    as (form2 & Hcall2 & Herrors2).
  exists form1, form2. eexists. split; [exact Hcall1|]. split; [exact Hcall2|].
  split; [exact Herrors2|]. by apply get_path_set_at.
Qed.

Lemma setError_accumulates_witness :
  ∃ form1 form2 errors2,
    setError_form sample_form (FieldLevel "name" (Str "Too short") None) = Some form1
    ∧ setError_form form1 (FieldLevel "name" (Str "Taken") None) = Some form2
    ∧ form_errors form2 = Some errors2
    ∧ get_path errors2 ["name"]
      = Some (Messages ["Required"; "Too short"; "Taken"]).
Proof.
  apply (setError_accumulates sample_form "name" (Str "Too short") (Str "Taken")
           None None); [done|reflexivity].
Defined.

(** X11. Calls of [setError] for paths that part at some segment can be
    made in either order: on a tree both paths fit, the error tree after
    the two calls is the same. *)
Theorem setError_commutes (form0 : SuperValidated) (path1 path2 : string)
    (error1 error2 : StringOrArray) (options1 options2 : option SetErrorOptions)
    (common : list string) (k1 k2 : string) (r1 r2 : list string) :
  let errors0 := default ∅ (form_errors form0) in
  splitPath path1 = common ++ k1 :: r1 →
  splitPath path2 = common ++ k2 :: r2 →
  k1 ≠ k2 →
  fits errors0 (splitPath path1) = true →
  fits errors0 (splitPath path2) = true →
  ∃ form1 form12 form2 form21,
    setError_form form0 (FieldLevel path1 error1 options1) = Some form1
    ∧ setError_form form1 (FieldLevel path2 error2 options2) = Some form12
    ∧ setError_form form0 (FieldLevel path2 error2 options2) = Some form2
    ∧ setError_form form2 (FieldLevel path1 error1 options1) = Some form21
    ∧ form_errors form12 = form_errors form21.
Proof.
  intros errors0 Hsplit1 Hsplit2 Hne Hfits1 Hfits2.
  assert (Hsegments1 : splitPath path1 ≠ []) by (rewrite Hsplit1; by destruct common).
  assert (Hsegments2 : splitPath path2 ≠ []) by (rewrite Hsplit2; by destruct common).
  set (ow1 := truthy (options1 ≫= so_overwrite)).
  set (ow2 := truthy (options2 ≫= so_overwrite)).
  set (v1 := Messages (leaf_messages (get_path errors0 (splitPath path1)) ow1
                         (errArr_of error1))).
  set (v2 := Messages (leaf_messages (get_path errors0 (splitPath path2)) ow2
                         (errArr_of error2))).
  (* first path, then second *)
  assert (Hbody1 : setError_errors errors0 path1 (errArr_of error1) ow1
                   = Returned (set_at errors0 (splitPath path1) v1)).
  { by apply setError_errors_set_at. }
  destruct (setError_form_field form0 path1 error1 options1 _ Hbody1)
    as (form1 & Hcall1 & Herrors1).
  assert (Hbody12 :
    setError_errors (default ∅ (form_errors form1)) path2 (errArr_of error2) ow2
    = Returned (set_at (set_at errors0 (splitPath path1) v1) (splitPath path2) v2)).
  { rewrite Herrors1. cbn [default from_option id]. rewrite setError_errors_set_at; [|done|].
    - subst v2. rewrite Hsplit1, Hsplit2.
      by rewrite get_path_set_at_other.
    - rewrite Hsplit1, Hsplit2. apply fits_set_at_other; [done|].
      by rewrite <- Hsplit2. }
  destruct (setError_form_field form1 path2 error2 options2 _ Hbody12)
    as (form12 & Hcall12 & Herrors12).
  (* second path, then first *)
  assert (Hbody2 : setError_errors errors0 path2 (errArr_of error2) ow2
                   = Returned (set_at errors0 (splitPath path2) v2)).
  { by apply setError_errors_set_at. }
  destruct (setError_form_field form0 path2 error2 options2 _ Hbody2)
    as (form2 & Hcall2 & Herrors2).
  assert (Hbody21 :
    setError_errors (default ∅ (form_errors form2)) path1 (errArr_of error1) ow1
    = Returned (set_at (set_at errors0 (splitPath path2) v2) (splitPath path1) v1)).
  { rewrite Herrors2. cbn [default from_option id]. rewrite setError_errors_set_at; [|done|].
    - subst v1. rewrite Hsplit1, Hsplit2.
      by rewrite get_path_set_at_other.
    - rewrite Hsplit1, Hsplit2. apply fits_set_at_other; [done|].
      by rewrite <- Hsplit1. }
  destruct (setError_form_field form2 path1 error1 options1 _ Hbody21)
    as (form21 & Hcall21 & Herrors21).
  exists form1, form12, form2, form21.
  split; [exact Hcall1|]. split; [exact Hcall12|]. split; [exact Hcall2|].
  split; [exact Hcall21|].
  rewrite Herrors12, Herrors21. f_equal.
  rewrite Hsplit1, Hsplit2. by apply set_at_commute.
Qed.

Lemma setError_commutes_witness :
  ∃ form1 form12 form2 form21,
    setError_form sample_form (FieldLevel "address.city" (Str "Unknown city") None)
    = Some form1
    ∧ setError_form form1 (FieldLevel "address.zip" (Str "Too long") None)
      = Some form12
    ∧ setError_form sample_form (FieldLevel "address.zip" (Str "Too long") None)
      = Some form2
    ∧ setError_form form2 (FieldLevel "address.city" (Str "Unknown city") None)
      = Some form21
    ∧ form_errors form12 = form_errors form21.
Proof.
  apply (setError_commutes sample_form "address.city" "address.zip"
           (Str "Unknown city") (Str "Too long") None None
           ["address"] "city" "zip" [] []);
    [reflexivity|reflexivity|done|reflexivity|reflexivity].
Defined.

(** ** [superValidate], continued *)

Lemma message_plain_or_failed form0 msg options :
  match message form0 msg options with
  | Plain _ =>
      form_valid form0 = true ∧ given_at_least_400 (options ≫= mo_status) = false
  | Failed failure =>
      (form_valid form0 = false ∨ given_at_least_400 (options ≫= mo_status) = true)
      ∧ status failure = default 400 (options ≫= mo_status)
  end.
Proof.
  unfold message. rewrite status_is_error_given.
  set (remove := not_false (options ≫= mo_removeFiles)).
  destruct (given_at_least_400 _), (form_valid form0) eqn:Hvalid;
    cbn [set_message set_valid form_valid]; rewrite ?Hvalid;
    destruct remove; cbn [status failAndRemoveFiles realFail]; auto.
Qed.

Section SuperValidateFurther.

Context {Request : Type}.
Variable parseRequest :
  SuperValidateData Request → JSONSchema → option SuperValidateOptions → ParsedData.
Variable mergeDefaults : MaybeData → gmap string value → gmap string value.
Variable replaceInvalidDefaults :
  gmap string value → gmap string value → JSONSchema →
  list ValidationIssue → option (list string) → gmap string value.
Variable mapErrors : list ValidationIssue → gmap string value → ValidationErrors.

(** X12. A result that carries errors is invalid, and its errors come from
    the one call of [validate]: if the errors of the result are not the
    empty object, then [valid] is false, [validate] was invoked exactly
    once, and errors were to be added. *)
Theorem superValidate_errors_imply_invalid (call : SuperValidateCall Request) :
  let run :=
    superValidate parseRequest mergeDefaults replaceInvalidDefaults mapErrors call in
  form_errors (output run) ≠ Some ∅ →
  form_valid (output run) = false
  ∧ validate_calls run = [data_to_validate parseRequest mergeDefaults call]
  ∧ errors_added (options_of call) (parsed_request parseRequest call) = true.
Proof.
  cbv zeta. rewrite superValidate_stages.
  cbn [output validate_calls form_errors form_valid].
  unfold validation_status, validate_invoked.
  destruct (errors_added _ _).
  - rewrite orb_true_r, orb_false_r.
    destruct (success _); [done|]. by intros _.
  - by rewrite orb_true_r.
Qed.

(** X13. With [errors: false] the result never carries errors, whatever the
    data, the mode and the outcome of the validation. *)
Theorem superValidate_errors_false (call : SuperValidateCall Request) :
  options_of call ≫= opt_errors = Some false →
  form_errors (output (superValidate parseRequest mergeDefaults
                         replaceInvalidDefaults mapErrors call))
  = Some ∅.
Proof.
  intros Hfalse. rewrite superValidate_stages. cbn [output form_errors].
  unfold errors_added. rewrite Hfalse. by rewrite orb_true_r.
Qed.

(** X14. In strict mode, unless [errors] is [false], [validate] is invoked
    whether or not the request yields data, and on the parsed data as it
    is: the empty object when there is none, never the defaults. Its
    success flag is the [valid] of the result. *)
Theorem superValidate_strict (call : SuperValidateCall Request) :
  let run :=
    superValidate parseRequest mergeDefaults replaceInvalidDefaults mapErrors call in
  let posted :=
    match parsed_data (parsed_request parseRequest call) with
    | DataObject o => o
    | _ => ∅
    end in
  options_of call ≫= opt_strict = Some true →
  options_of call ≫= opt_errors ≠ Some false →
  validate_calls run = [posted]
  ∧ form_valid (output run) = success (validate (validator_of call) posted).
Proof.
  cbv zeta. intros Hstrict Herrors. rewrite superValidate_stages.
  cbn [output validate_calls form_valid].
  unfold validation_status, validate_invoked, data_to_validate, errors_added.
  rewrite Hstrict. cbn [truthy default from_option id].
  destruct (options_of call ≫= opt_errors) as [[|]|]; [|done|];
    by rewrite orb_true_r.
Qed.

(** X15. With a schema that has [additionalProperties === false] and no
    [properties], the data of the result is the empty object, whatever was
    posted and whatever the adapter returns. *)
Theorem superValidate_no_properties (call : SuperValidateCall Request) :
  additionalProperties_false (adapter_jsonSchema (validator_of call)) = true →
  adapter_jsonSchema (validator_of call) !! "properties" = None →
  form_data (output (superValidate parseRequest mergeDefaults
                       replaceInvalidDefaults mapErrors call))
  = ∅.
Proof.
  intros Hclosed Hnone. rewrite superValidate_stages. cbn [output form_data].
  rewrite Hclosed. unfold schema_properties. rewrite Hnone. reflexivity.
Qed.

(** X16. [message] on the result of [superValidate]: it returns the plain
    object exactly when the validation succeeded and no status of 400 or
    more is given; otherwise it returns a failure, with the given status,
    or 400 when none is given. *)
Theorem message_after_superValidate (call : SuperValidateCall Request)
    (msg : value) (options : option MessageOptions) :
  let out :=
    output (superValidate parseRequest mergeDefaults replaceInvalidDefaults
              mapErrors call) in
  let accepted := success (validation_status parseRequest mergeDefaults call) in
  match message out msg options with
  | Plain _ =>
      accepted = true ∧ given_at_least_400 (options ≫= mo_status) = false
  | Failed failure =>
      (accepted = false ∨ given_at_least_400 (options ≫= mo_status) = true)
      ∧ status failure
        = match options ≫= mo_status with Some st => st | None => 400 end
  end.
Proof.
  cbv zeta.
  pose proof (message_plain_or_failed
                (output (superValidate parseRequest mergeDefaults
                           replaceInvalidDefaults mapErrors call))
                msg options) as Hmessage.
  rewrite superValidate_stages in Hmessage |- *.
  cbn [output form_valid] in Hmessage.
  destruct (message _ msg options); [exact Hmessage|].
  destruct Hmessage as [Hwhy ->]. split; [exact Hwhy|].
  by destruct (options ≫= mo_status).
Qed.

(** X17. [setError] on a valid result of [superValidate], whose errors are
    the empty object: for every path with at least one segment that the
    empty tree fits (no intermediate segment is the name of a member of
    [Object.prototype], and the last is not [__proto__]) the call returns,
    and the error tree of the form is then the chain of objects along the
    path, with the messages at its end, and nothing else. *)
Theorem setError_after_superValidate (call : SuperValidateCall Request)
    (path : string) (error : StringOrArray) (options : option SetErrorOptions)
    (k : string) (rest : list string) :
  let out :=
    output (superValidate parseRequest mergeDefaults replaceInvalidDefaults
              mapErrors call) in
  form_valid out = true →
  splitPath path = k :: rest →
  fits ∅ (k :: rest) = true →
  ∃ form1,
    setError_form out (FieldLevel path error options) = Some form1
    ∧ form_errors form1
      = Some {[ k := fresh_chain rest (Messages (errArr_of error)) ]}.
Proof.
  cbv zeta. rewrite superValidate_stages. cbn [output form_valid].
  intros Hvalid Hsplit Hfits.
  apply setError_form_field. cbn [form_errors]. rewrite Hvalid.
  cbn [orb default from_option id].
  rewrite setError_errors_set_at; [|by rewrite Hsplit|by rewrite Hsplit].
  rewrite get_path_empty by (by rewrite Hsplit). cbn [leaf_messages].
  f_equal.
  assert (Hchain :
    Nested (set_at ∅ (splitPath path) (Messages (errArr_of error)))
    = Nested {[ k := fresh_chain rest (Messages (errArr_of error)) ]}).
  { rewrite set_at_empty_chain by (by rewrite Hsplit). by rewrite Hsplit. }
  by injection Hchain.
Qed.

End SuperValidateFurther.

Lemma superValidate_errors_imply_invalid_witness :
  form_valid (output (sample_superValidate invalid_call)) = false
  ∧ validate_calls (sample_superValidate invalid_call)
    = [data_to_validate parse_plain merge_flat invalid_call]
  ∧ errors_added (options_of invalid_call)
      (parsed_request parse_plain invalid_call) = true.
Proof.
  apply (superValidate_errors_imply_invalid parse_plain merge_flat replace_nothing
           map_flat invalid_call).
  vm_compute. discriminate.
Defined.

Lemma superValidate_errors_false_witness :
  form_errors (output (sample_superValidate suppressed_call)) = Some ∅.
Proof.
  apply (superValidate_errors_false parse_plain merge_flat replace_nothing
           map_flat suppressed_call).
  reflexivity.
Defined.

Lemma superValidate_strict_witness :
  validate_calls (sample_superValidate strict_call) = [∅]
  ∧ form_valid (output (sample_superValidate strict_call))
    = success (validate (validator_of strict_call) ∅).
Proof.
  apply (superValidate_strict parse_plain merge_flat replace_nothing map_flat
           strict_call); [reflexivity|discriminate].
Defined.

Lemma superValidate_no_properties_witness :
  form_data (output (sample_superValidate bare_call)) = ∅.
Proof.
  apply (superValidate_no_properties parse_plain merge_flat replace_nothing
           map_flat bare_call); reflexivity.
Defined.

Lemma setError_after_superValidate_witness :
  ∃ form1,
    setError_form (output (sample_superValidate valid_call))
      (FieldLevel "address.city" (Str "Unknown city") None) = Some form1
    ∧ form_errors form1
      = Some {[ "address" := Nested {[ "city" := Messages ["Unknown city"] ]} ]}.
Proof.
  apply (setError_after_superValidate parse_plain merge_flat replace_nothing
           map_flat valid_call "address.city" (Str "Unknown city") None
           "address" ["city"]); reflexivity.
Defined.
